(** * rss-sync: feed-to-ledger reconciliation (main.ts)

    A shallow embedding of the reconciliation engine of [main.ts]: the
    marker codec ([addGUID], [normalizeGUID], [findGUID]), the item
    normalizer ([FeedItem.fromEntry], [addURL]), the history scanner
    ([getSeenGUIDs]), the reconciler ([syncFeed]) and the batch driver
    ([syncCommand]).  Logging is not modelled: it has no effect on the
    values the program computes. *)

From Stdlib Require Import List ZArith NArith Bool Lia String Ascii.
From Stdlib Require Import Sorting.Sorted Sorting.Permutation.
Import ListNotations.

Set Implicit Arguments.

(* ================================================================= *)
(** * JavaScript values *)

(** A JavaScript string is a sequence of UTF-16 code units.  The regular
    expressions of the program carry no [u] flag, so they too work on code
    units. *)
Definition jsstring := list N.

(** ASCII literals of the source, as code units. *)
Definition lit (s : string) : jsstring :=
  map N_of_ascii (list_ascii_of_string s).

Definition QUOTE : N := 34.  (* the double quote *)
Definition GT : N := 62.     (* > *)
Definition LF : N := 10.     (* \n *)
Definition LT : N := 60.     (* < *)

(** ECMAScript LineTerminator: LF, CR, LS (U+2028), PS (U+2029). *)
Definition isLineTerminator (c : N) : bool :=
  ((c =? 10) || (c =? 13) || (c =? 8232) || (c =? 8233))%N.

(** ECMAScript WhiteSpace (TAB, VT, FF, ZWNBSP and the Unicode space
    separators) together with the line terminators: what [trimEnd] strips. *)
Definition isTrimmable (c : N) : bool :=
  (isLineTerminator c
   || (c =? 9) || (c =? 11) || (c =? 12) || (c =? 32) || (c =? 160)
   || (c =? 5760) || ((8192 <=? c) && (c <=? 8202))
   || (c =? 8239) || (c =? 8287) || (c =? 12288) || (c =? 65279))%N.

Fixpoint dropWhile (p : N -> bool) (s : jsstring) : jsstring :=
  match s with
  | [] => []
  | c :: s' => if p c then dropWhile p s' else s
  end.

(** [String.prototype.trimEnd]. *)
Definition trimEnd (s : jsstring) : jsstring :=
  rev (dropWhile isTrimmable (rev s)).

(** [String.prototype.includes]: literal containment. *)
Fixpoint startsWith (t s : jsstring) : bool :=
  match t, s with
  | [], _ => true
  | _ :: _, [] => false
  | a :: t', c :: s' => (a =? c)%N && startsWith t' s'
  end.

Fixpoint includes (s t : jsstring) : bool :=
  startsWith t s ||
  match s with
  | [] => false
  | _ :: s' => includes s' t
  end.

(** The numbers of the program are time values and their differences: a
    time value of a [Date] is NaN (an invalid date) or an integer number of
    milliseconds of magnitude at most 8.64e15.  Time values, the cutoff
    [t - ONE_WEEK_MS] and the [BigInt] conversion are then exact in IEEE
    doubles (all below 2^53), and the difference of two time values, even
    where it is rounded, keeps its sign and is zero only for equal
    operands.  Integers are therefore modelled by [Z]. *)
Inductive number : Type :=
| NaN
| Num (z : Z).

Definition Date := number.

(** [Date.prototype.valueOf]. *)
Definition valueOf (d : Date) : number := d.

Definition sub (a b : number) : number :=
  match a, b with
  | Num x, Num y => Num (x - y)
  | _, _ => NaN
  end.

(** [a == 0] on a number. *)
Definition isZero (a : number) : bool :=
  match a with
  | Num z => (z =? 0)%Z
  | NaN => false
  end.

(** [b < n] for a bigint [b] and a number [n]: the mathematical comparison,
    false against NaN. *)
Definition bigint_lt_number (b : Z) (n : number) : bool :=
  match n with
  | Num z => (b <? z)%Z
  | NaN => false
  end.

Definition isValid (n : number) : bool :=
  match n with
  | Num _ => true
  | NaN => false
  end.

(** Exceptions that the modelled code raises. *)
Inductive Exn : Type :=
| EpochDate                      (* thrown by the FeedItem constructor *)
| SyntaxError                    (* new RegExp on an invalid pattern *)
| RangeError                     (* BigInt of NaN *)
| FetchError (url : jsstring)    (* readRSS could not fetch or parse *)
| PutRejected                    (* the ledger refused a write *)
| ConfigError                    (* the configuration could not be loaded *)
| WithContext (context : jsstring) (cause : Exn).

Inductive Result (A : Type) : Type :=
| Ok (a : A)
| Throw (e : Exn).

Arguments Ok {A} a.
Arguments Throw {A} e.

Definition bind {A B} (r : Result A) (k : A -> Result B) : Result B :=
  match r with
  | Ok a => k a
  | Throw e => Throw e
  end.

Notation "'let*' x ':=' r 'in' k" := (bind r (fun x => k))
  (at level 10, x name, r at level 100, k at level 200).

Definition threw {A} (r : Result A) : bool :=
  match r with
  | Ok _ => false
  | Throw _ => true
  end.

(* ================================================================= *)
(** * Marker codec *)

(** [normalizeGUID]: a missing or empty identifier becomes the placeholder
    [undefined]; otherwise the [replaceAll] over the class of the double
    quote and [>] deletes every such code unit. *)
Definition guidChar (c : N) : bool :=
  (negb (c =? QUOTE) && negb (c =? GT))%N.

Definition stripQuoteGt (value : jsstring) : jsstring :=
  filter guidChar value.

Definition UNDEFINED : jsstring := Eval cbv in lit "undefined".

Definition normalizeGUID (value : option jsstring) : jsstring :=
  match value with
  | None | Some [] => UNDEFINED
  | Some v => stripQuoteGt v
  end.

Definition GUID_OPEN : jsstring := Eval cbv in (lit "<!-- GUID: " ++ [QUOTE]).
Definition GUID_CLOSE : jsstring := Eval cbv in (QUOTE :: lit " -->").
Definition BLANK_LINE : jsstring := [LF; LF].

Definition marker (id : jsstring) : jsstring :=
  GUID_OPEN ++ id ++ GUID_CLOSE.

(** [addGUID]. *)
Definition addGUID (markdown : jsstring) (guid : option jsstring) : jsstring :=
  trimEnd markdown ++ BLANK_LINE ++ marker (normalizeGUID guid).

(** Matching a literal piece of a pattern at the head of [s]: the rest of
    [s] after it. *)
Fixpoint matchLiteral (l s : jsstring) : option jsstring :=
  match l, s with
  | [], _ => Some s
  | _ :: _, [] => None
  | a :: l', c :: s' => if (a =? c)%N then matchLiteral l' s' else None
  end.

(** The longest prefix of [s] whose code units satisfy [p], and the rest. *)
Fixpoint span (p : N -> bool) (s : jsstring) : jsstring * jsstring :=
  match s with
  | [] => ([], [])
  | c :: s' =>
      if p c then let (g, r) := span p s' in (c :: g, r) else ([], s)
  end.

(** One attempt of [GUID_PATTERN] with its [^] already checked: the
    literal opening, the greedy negated class (one or more code units that
    are neither a double quote nor [>]), the literal closing; the capture
    of group 1.  The class excludes the quote that must follow it,
    so backtracking to a shorter capture can never succeed and only the
    longest run is tried. *)
Definition matchGUIDAt (s : jsstring) : option jsstring :=
  match matchLiteral GUID_OPEN s with
  | None => None
  | Some r =>
      let (g, r') := span guidChar r in
      match g with
      | [] => None
      | _ :: _ =>
          match matchLiteral GUID_CLOSE r' with
          | Some _ => Some g
          | None => None
          end
      end
  end.

Definition matchLength (g : jsstring) : nat :=
  List.length GUID_OPEN + List.length g + List.length GUID_CLOSE.

(** [markdown.matchAll(GUID_PATTERN)], the captures of group 1 in order.
    With the [m] flag [^] matches at the start of the text and after a line
    terminator; with the [g] flag the search resumes where the last match
    ended ([skipCount] code units of the match are still to be passed). *)
Fixpoint matchAllFrom (skipCount : nat) (lineStart : bool) (s : jsstring)
  : list jsstring :=
  match s with
  | [] => []
  | c :: rest =>
      match skipCount with
      | S k => matchAllFrom k (isLineTerminator c) rest
      | O =>
          match (if lineStart then matchGUIDAt s else None) with
          | Some g =>
              g :: matchAllFrom (pred (matchLength g)) (isLineTerminator c) rest
          | None => matchAllFrom 0 (isLineTerminator c) rest
          end
      end
  end.

Definition matchAll (markdown : jsstring) : list jsstring :=
  matchAllFrom 0 true markdown.

(** [findGUID]: the first match's capture, [None] for [null]. *)
Definition findGUID (markdown : jsstring) : option jsstring :=
  match matchAll markdown with
  | [] => None
  | g :: _ => Some g
  end.

(** The leftmost match alone, the form in which [findGUID] is reasoned
    about. *)
Fixpoint firstGUID (lineStart : bool) (s : jsstring) : option jsstring :=
  match s with
  | [] => None
  | c :: rest =>
      match (if lineStart then matchGUIDAt s else None) with
      | Some g => Some g
      | None => firstGUID (isLineTerminator c) rest
      end
  end.

(* ================================================================= *)
(** * Regular expressions built from a string *)

(** [markdown.search(url)] converts the string [url] with [new RegExp(url)]
    and returns the index of the first match, or -1.  The fragment of the
    pattern language modelled here: pattern characters, [.], and the
    greedy quantifiers [?], [*] and [+] on one atom.  Every other pattern
    (classes, groups, escapes, assertions, alternation, braces, lazy
    quantifiers, and the patterns that are syntax errors) is outside the
    fragment and [parse] answers [None] for it. *)
Module RegExp.

Inductive Atom : Type :=
| Char (c : N)
| Dot.

Inductive Quantifier : Type :=
| Once
| Optional
| Star
| Plus.

Definition Term : Type := (Atom * Quantifier)%type.

(** SyntaxCharacter of the pattern grammar. *)
Definition isSyntaxCharacter (c : N) : bool :=
  ((c =? 94) || (c =? 36) || (c =? 92) || (c =? 46) || (c =? 42)
   || (c =? 43) || (c =? 63) || (c =? 40) || (c =? 41) || (c =? 91)
   || (c =? 93) || (c =? 123) || (c =? 125) || (c =? 124))%N.

Definition atomOf (c : N) : option Atom :=
  if (c =? 46)%N then Some Dot
  else if isSyntaxCharacter c then None
  else Some (Char c).

Definition quantifierOf (c : N) : option Quantifier :=
  if (c =? 63)%N then Some Optional
  else if (c =? 42)%N then Some Star
  else if (c =? 43)%N then Some Plus
  else None.

Fixpoint parse (p : jsstring) : option (list Term) :=
  match p with
  | [] => Some []
  | c :: rest =>
      match atomOf c with
      | None => None
      | Some a =>
          match rest with
          | [] => Some [(a, Once)]
          | q :: rest' =>
              match quantifierOf q with
              | Some k => option_map (cons (a, k)) (parse rest')
              | None => option_map (cons (a, Once)) (parse rest)
              end
          end
      end
  end.

(** Without the [s] flag the dot matches any code unit but a line
    terminator; without [i] characters match themselves only. *)
Definition atomMatches (a : Atom) (c : N) : bool :=
  match a with
  | Char x => (x =? c)%N
  | Dot => negb (isLineTerminator c)
  end.

(** Zero or more [a], then the continuation [k]: whether some split
    matches (the order in which a backtracking matcher tries the splits
    does not change whether one exists). *)
Fixpoint star (a : Atom) (k : jsstring -> bool) (s : jsstring) : bool :=
  k s ||
  match s with
  | [] => false
  | c :: s' => atomMatches a c && star a k s'
  end.

Definition one (a : Atom) (k : jsstring -> bool) (s : jsstring) : bool :=
  match s with
  | [] => false
  | c :: s' => atomMatches a c && k s'
  end.

(** Whether the pattern matches at the head of [s]. *)
Fixpoint matchesHere (ts : list Term) (s : jsstring) {struct ts} : bool :=
  match ts with
  | [] => true
  | (a, q) :: ts' =>
      match q with
      | Once => one a (matchesHere ts') s
      | Optional => one a (matchesHere ts') s || matchesHere ts' s
      | Star => star a (matchesHere ts') s
      | Plus => one a (star a (matchesHere ts')) s
      end
  end.

(** The index of the leftmost match at or after index [i], or -1. *)
Fixpoint searchFrom (ts : list Term) (i : Z) (s : jsstring) : Z :=
  if matchesHere ts s then i
  else match s with
       | [] => (-1)%Z
       | _ :: s' => searchFrom ts (i + 1)%Z s'
       end.

(** [s.search(p)] for a string [p] of the fragment. *)
Definition search (s p : jsstring) : option Z :=
  option_map (fun ts => searchFrom ts 0%Z s) (parse p).

End RegExp.

(* ================================================================= *)
(** * Feed entries, configuration and the ledger *)

(** The parsed feed of the rss library, as far as the program reads it. *)
Module rss.

Inductive TextType : Type := text | html | xhtml.

Record TextField : Type := {
  type : option TextType;
  value : option jsstring
}.

Record Link : Type := { href : option jsstring }.

Record FeedEntry : Type := {
  id : option jsstring;          (* undefined when the feed gives none *)
  published : option Date;
  dc_modified : option Date;     (* item["dc:modified"] *)
  content : option TextField;
  description : option TextField;
  links : list Link;
  title : option TextField
}.

Record Feed : Type := { entries : list FeedEntry }.

End rss.

(** The ledger and its client.  Serialisation and signing are left out: a
    record is identified with the item it encodes, and an entry of the
    item list with what [getItem] answers for its signature.  Reads of the
    ledger are taken to succeed; a write may be refused. *)
Module diskuto.

Definition UserID := jsstring.
Definition PrivateKey := jsstring.

Inductive ItemType : Type :=
| post (title body : jsstring)
| profile (displayName about : jsstring)
| comment (text : jsstring).

Record Item : Type := {
  timestampMsUtc : Z;
  itemType : ItemType
}.

Record ItemListEntry : Type := {
  entryTimestampMsUtc : Z;
  getItem : option Item          (* null when the item cannot be had *)
}.

(** The state of the server: for each identity its item list, newest
    first, as [getUserItems] streams it. *)
Definition Client := UserID -> list ItemListEntry.

Definition getUserItems (client : Client) (userID : UserID)
  : list ItemListEntry := client userID.

Definition entryOf (item : Item) : ItemListEntry :=
  {| entryTimestampMsUtc := timestampMsUtc item; getItem := Some item |}.

(** The server files an accepted item under its own timestamp. *)
Fixpoint insertNewestFirst (e : ItemListEntry) (l : list ItemListEntry)
  : list ItemListEntry :=
  match l with
  | [] => [e]
  | x :: l' =>
      if (entryTimestampMsUtc e <? entryTimestampMsUtc x)%Z
      then x :: insertNewestFirst e l'
      else e :: l
  end.

Definition sameUser (a b : UserID) : bool :=
  if list_eq_dec N.eq_dec a b then true else false.

Definition store (client : Client) (userID : UserID) (item : Item) : Client :=
  fun u =>
    if sameUser u userID
    then insertNewestFirst (entryOf item) (client u)
    else client u.

End diskuto.

(** [Feed] and [Config] of config.ts, already validated. *)
Record Feed : Type := {
  name : jsstring;
  rssUrl : jsstring;
  userId : diskuto.UserID;
  secretKey : diskuto.PrivateKey
}.

Record Config : Type := {
  diskutoApi : jsstring;
  feeds : list Feed
}.

(** The collaborators of the program: the markup converter of
    markdown.ts, the entity decoder, the regular expression engine behind
    [String.prototype.search], the network ([readRSS] either yields the
    parsed feed or throws), the ledger's refusal of a write, and the
    configuration loader. *)
Class Platform : Type := {
  htmlToMarkdown : option jsstring -> jsstring;
  unescape : jsstring -> jsstring;
  search : jsstring -> jsstring -> Result Z;
  readRSS : jsstring -> Result rss.Feed;
  putRefused : diskuto.UserID -> diskuto.Item -> bool;
  loadConfig : jsstring -> Result Config
}.

(** A platform whose [search] is the regular expression engine wherever
    the modelled fragment defines it. *)
Definition searchIsRegExp (P : Platform) : Prop :=
  forall s p i, RegExp.search s p = Some i -> search s p = Ok i.

(** Modelled from the spec: logging.ts is not among the sources.  Its
    [errorContext] runs the callback, hands back its result, and lets its
    failure through to the caller with the context attached. *)
Definition errorContext {A} (context : jsstring) (r : Result A) : Result A :=
  match r with
  | Ok a => Ok a
  | Throw e => Throw (WithContext context e)
  end.

(* ================================================================= *)
(** * Item normalizer *)

(** JavaScript truthiness of a [string | undefined]. *)
Definition truthy (v : option jsstring) : bool :=
  match v with
  | Some (_ :: _) => true
  | _ => false
  end.

(** The text of the backlink; its ellipsis is the single code unit
    U+2026. *)
Definition CONTINUE_OPEN : jsstring :=
  Eval cbv in (lit "[Continue Reading" ++ [8230%N] ++ lit "](").
Definition CONTINUE_CLOSE : jsstring := Eval cbv in lit ")".

Definition withBacklink (markdown url : jsstring) : jsstring :=
  trimEnd markdown ++ BLANK_LINE ++ CONTINUE_OPEN ++ url ++ CONTINUE_CLOSE.

(** [addURL]. *)
Definition addURL `{Platform} (markdown url : jsstring) : Result jsstring :=
  let* index := search markdown url in
  if (index >=? 0)%Z then Ok markdown else Ok (withBacklink markdown url).

(** [getText]. *)
Definition getText `{Platform} (field : option rss.TextField)
  : option jsstring :=
  match field with
  | None => None
  | Some f =>
      match rss.value f with
      | None => None
      | Some [] => Some []
      | Some v =>
          match rss.type f with
          | Some rss.html | Some rss.xhtml => Some (unescape v)
          | _ => Some v
          end
      end
  end.

(** The interface [ItemData].  The identifier is typed [string] in the
    source, yet [fromEntry] passes an entry's [id], which a feed may leave
    undefined. *)
Module ItemData.

Record t : Type := {
  guid : option jsstring;
  title : option jsstring;
  markdown : jsstring;
  published : Date
}.

End ItemData.

Module FeedItem.

Record t : Type := {
  guid : option jsstring;
  title : option jsstring;
  markdown : jsstring;
  published : Date;
  timestampMsUTC : number
}.

(** The constructor. *)
Definition new (data : ItemData.t) : Result t :=
  let this := {| guid := ItemData.guid data;
                 title := ItemData.title data;
                 markdown := ItemData.markdown data;
                 published := ItemData.published data;
                 timestampMsUTC := valueOf (ItemData.published data) |} in
  if isZero (timestampMsUTC this) then Throw EpochDate else Ok this.

Definition sortByDate (a b : t) : number :=
  sub (timestampMsUTC a) (timestampMsUTC b).

(** [toProtobuf]: [BigInt] throws a RangeError on NaN; an undefined
    title is the empty string of the schema. *)
Definition toProtobuf (this : t) : Result diskuto.Item :=
  match timestampMsUTC this with
  | NaN => Throw RangeError
  | Num ms =>
      Ok {| diskuto.timestampMsUtc := ms;
            diskuto.itemType :=
              diskuto.post (match title this with Some x => x | None => [] end)
                           (markdown this) |}
  end.

Definition orElse {A} (a b : option A) : option A :=
  match a with
  | Some _ => a
  | None => b
  end.

(** [fromEntry]: [Ok None] is the skipped entry. *)
Definition fromEntry `{Platform} (item : rss.FeedEntry) : Result (option t) :=
  let guid := rss.id item in
  match orElse (rss.published item) (rss.dc_modified item) with
  | None => Ok None
  | Some published =>
      let body := orElse (rss.content item) (rss.description item) in
      let markdown :=
        htmlToMarkdown (match body with
                        | Some b => rss.value b
                        | None => None
                        end) in
      let url := match rss.links item with
                 | l :: _ => rss.href l
                 | [] => None
                 end in
      let* markdown :=
        (match url with
         | Some (c :: u) => addURL markdown (c :: u)
         | _ => Ok markdown
         end) in
      let markdown := addGUID markdown (rss.id item) in
      let* it := new {| ItemData.guid := guid;
                        ItemData.published := published;
                        ItemData.markdown := markdown;
                        ItemData.title := getText (rss.title item) |} in
      Ok (Some it)
  end.

End FeedItem.

(* ================================================================= *)
(** * Sorting *)

(** [Array.prototype.sort] with a comparator.  The sort is stable, and a
    comparator result of NaN counts as +0.  For a consistent comparator the
    language fixes the result, which is the one of this insertion sort.
    For an inconsistent one (here: a NaN timestamp among the items) the
    language leaves the order to the implementation.  V8, the engine of
    Deno, first looks for a run: three items whose neighbours compare as 0
    are one ascending run to it and stay as they are, which is also what
    this insertion sort makes of them. *)
Section Sort.

Variable A : Type.
Variable comparefn : A -> A -> number.

Definition sortCompare (x y : A) : Z :=
  match comparefn x y with
  | NaN => 0
  | Num v => v
  end.

Fixpoint insert (x : A) (l : list A) : list A :=
  match l with
  | [] => [x]
  | y :: l' =>
      if (sortCompare x y <=? 0)%Z then x :: l else y :: insert x l'
  end.

Definition sort (l : list A) : list A := fold_right insert [] l.

End Sort.

(* ================================================================= *)
(** * History scanner *)

Definition ONE_WEEK_MS : Z := 1000 * 60 * 60 * 24 * 7.

(** [Set<string>], in insertion order. *)
Module StringSet.

Definition t := list jsstring.

Definition empty : t := [].

Definition has (s : t) (v : option jsstring) : bool :=
  match v with
  | None => false
  | Some x => if in_dec (list_eq_dec N.eq_dec) x s then true else false
  end.

Definition add (x : jsstring) (s : t) : t :=
  if has s (Some x) then s else s ++ [x].

Definition size (s : t) : nat := List.length s.

End StringSet.

(** The loop of [getSeenGUIDs] over the stream of entries. *)
Fixpoint scanEntries (cutoff : number) (entries : list diskuto.ItemListEntry)
  (guids : StringSet.t) : StringSet.t :=
  match entries with
  | [] => guids
  | entry :: rest =>
      if bigint_lt_number (diskuto.entryTimestampMsUtc entry) cutoff
      then guids                                             (* break *)
      else
        match diskuto.getItem entry with
        | Some {| diskuto.itemType := diskuto.post _ body |} =>
            let guid := findGUID body in
            if truthy guid
            then scanEntries cutoff rest
                   (match guid with
                    | Some g => StringSet.add g guids
                    | None => guids
                    end)
            else scanEntries cutoff rest guids
        | _ => scanEntries cutoff rest guids                 (* continue *)
        end
  end.

Definition getSeenGUIDs (client : diskuto.Client) (userID : diskuto.UserID)
  (oldestTimestamp : number) : StringSet.t :=
  let cutoff := sub oldestTimestamp (Num ONE_WEEK_MS) in
  scanEntries cutoff (diskuto.getUserItems client userID) StringSet.empty.

(* ================================================================= *)
(** * Reconciler *)

Definition MAX_FEED_ITEMS : nat := 200.

(** What one run leaves behind: how it ended, the state of the ledger, and
    the items whose [putItem] was acknowledged, in the order of their
    submission. *)
Record Run : Type := {
  outcome : Result unit;
  ledger : diskuto.Client;
  stored : list FeedItem.t
}.

(** [client.putItem]. *)
Definition putItem `{Platform} (client : diskuto.Client)
  (userID : diskuto.UserID) (bytes : diskuto.Item) : Result diskuto.Client :=
  if putRefused userID bytes then Throw PutRejected
  else Ok (diskuto.store client userID bytes).

(** The first loop of [syncFeed]: an exception of [fromEntry] leaves the
    loop and the function. *)
Fixpoint collectItems `{Platform} (entries : list rss.FeedEntry)
  : Result (list FeedItem.t) :=
  match entries with
  | [] => Ok []
  | entry :: rest =>
      let* item := FeedItem.fromEntry entry in
      let* items := collectItems rest in
      Ok (match item with
          | Some i => i :: items
          | None => items
          end)
  end.

(** The last loop of [syncFeed]: sign and submit, one after the other. *)
Fixpoint storeItems `{Platform} (userID : diskuto.UserID)
  (items : list FeedItem.t) (client : diskuto.Client) : Run :=
  match items with
  | [] => {| outcome := Ok tt; ledger := client; stored := [] |}
  | item :: rest =>
      match FeedItem.toProtobuf item with
      | Throw e => {| outcome := Throw e; ledger := client; stored := [] |}
      | Ok bytes =>
          match putItem client userID bytes with
          | Throw e => {| outcome := Throw e; ledger := client; stored := [] |}
          | Ok client' =>
              let r := storeItems userID rest client' in
              {| outcome := outcome r;
                 ledger := ledger r;
                 stored := item :: stored r |}
          end
      end
  end.

Definition quiet (client : diskuto.Client) (r : Result unit) : Run :=
  {| outcome := r; ledger := client; stored := [] |}.

(** The items that remain after the filter, given the sorted items. *)
Definition unseen (client : diskuto.Client) (userID : diskuto.UserID)
  (sorted : list FeedItem.t) : list FeedItem.t :=
  match sorted with
  | [] => []
  | oldest :: _ =>
      let oldestTimestamp := FeedItem.timestampMsUTC oldest in
      let seenGUIDs := getSeenGUIDs client userID oldestTimestamp in
      filter (fun i => negb (StringSet.has seenGUIDs (FeedItem.guid i))) sorted
  end.

(** [syncFeed]. *)
Definition syncFeed `{Platform} (feedConfig : Feed) (client : diskuto.Client)
  : Run :=
  let userID := userId feedConfig in
  match readRSS (rssUrl feedConfig) with
  | Throw e => quiet client (Throw e)
  | Ok feed =>
      match collectItems (firstn MAX_FEED_ITEMS (rss.entries feed)) with
      | Throw e => quiet client (Throw e)
      | Ok itemsToStore =>
          match itemsToStore with
          | [] => quiet client (Ok tt)
          | _ :: _ =>
              let itemsToStore := sort FeedItem.sortByDate itemsToStore in
              match unseen client userID itemsToStore with
              | [] => quiet client (Ok tt)
              | remaining => storeItems userID remaining client
              end
          end
      end
  end.

(* ================================================================= *)
(** * Batch driver *)

Inductive Exit : Type :=
| Returned                  (* the command ran to its end *)
| Exited (code : Z)         (* Deno.exit(code) *)
| Uncaught (e : Exn).       (* the command's promise was rejected *)

Record Batch : Type := {
  attempts : list (Feed * Result unit);   (* each feed with how it ended *)
  errors : list Exn;
  server : diskuto.Client
}.

Definition contextOf (feedConfig : Feed) : jsstring :=
  lit "Syncing items for " ++
  (match name feedConfig with
   | [] => rssUrl feedConfig
   | n => n
   end).

(** The loop of [syncCommand] over the configured feeds. *)
Fixpoint syncFeeds `{Platform} (feeds : list Feed) (client : diskuto.Client)
  : Batch :=
  match feeds with
  | [] => {| attempts := []; errors := []; server := client |}
  | feedConfig :: rest =>
      let run := syncFeed feedConfig client in
      let result := errorContext (contextOf feedConfig) (outcome run) in
      let b := syncFeeds rest (ledger run) in
      {| attempts := (feedConfig, result) :: attempts b;
         errors := (match result with
                    | Throw error => [error]
                    | Ok _ => []
                    end) ++ errors b;
         server := server b |}
  end.

Record MainOptions : Type := {
  config : jsstring;
  debug : bool;
  trace : bool
}.

(** [syncCommand]: how the command ends, and the batch it ran. *)
Definition syncCommand `{Platform} (options : MainOptions)
  (client : diskuto.Client) : Exit * Batch :=
  match errorContext (lit "Reading " ++ config options)
                     (loadConfig (config options)) with
  | Throw e => (Uncaught e, {| attempts := []; errors := []; server := client |})
  | Ok config =>
      let b := syncFeeds (feeds config) client in
      if (0 <? List.length (errors b))%nat then (Exited 1, b) else (Returned, b)
  end.

(* ================================================================= *)
(** * Properties stated about the program *)

(** The round trip of the marker codec: decoding an encoded body gives the
    identifier without its double quotes and [>]. *)
Definition roundTrips (markdown guid : jsstring) : Prop :=
  findGUID (addGUID markdown (Some guid)) = Some (stripQuoteGt guid).

(** An item list in the order the ledger client promises: no entry is
    followed by a newer one. *)
Definition newestFirst (l : list diskuto.ItemListEntry) : Prop :=
  StronglySorted
    (fun a b => (diskuto.entryTimestampMsUtc b <= diskuto.entryTimestampMsUtc a)%Z)
    l.

(** An entry strictly older than the oldest pending timestamp minus one
    week, and its contrary: an entry inside the scan window. *)
Definition tooOld (oldestTimestamp : number) (e : diskuto.ItemListEntry)
  : Prop :=
  match oldestTimestamp with
  | Num t => (diskuto.entryTimestampMsUtc e < t - 604800000)%Z
  | NaN => False
  end.

Definition inWindow (oldestTimestamp : number) (e : diskuto.ItemListEntry)
  : Prop :=
  ~ tooOld oldestTimestamp e.

(** The entry is a post whose body decodes to the identifier [g]. *)
Definition postMarked (e : diskuto.ItemListEntry) (g : jsstring) : Prop :=
  exists ms title body,
    diskuto.getItem e =
      Some {| diskuto.timestampMsUtc := ms;
              diskuto.itemType := diskuto.post title body |}
    /\ findGUID body = Some g.

(** The normalized items of a feed, as [syncFeed] collects them. *)
Definition pending `{Platform} (feedConfig : Feed) : Result (list FeedItem.t) :=
  let* feed := readRSS (rssUrl feedConfig) in
  collectItems (firstn MAX_FEED_ITEMS (rss.entries feed)).

(** The timestamp [syncFeed] hands to the scanner: that of the first item
    after sorting. *)
Definition oldestPending (items : list FeedItem.t) : number :=
  match sort FeedItem.sortByDate items with
  | [] => NaN
  | oldest :: _ => FeedItem.timestampMsUTC oldest
  end.

Definition validDates (items : list FeedItem.t) : Prop :=
  Forall (fun i => isValid (FeedItem.timestampMsUTC i) = true) items.

(** Decoding the body of the item gives the identifier the filter compares. *)
Definition decodesToItself (i : FeedItem.t) : Prop :=
  findGUID (FeedItem.markdown i) = FeedItem.guid i /\ FeedItem.guid i <> None.

(** [x] has the earlier publish timestamp of the two. *)
Definition earlier (x y : FeedItem.t) : Prop :=
  match FeedItem.timestampMsUTC x, FeedItem.timestampMsUTC y with
  | Num a, Num b => (a < b)%Z
  | _, _ => False
  end.

(** In a list of submissions, the earlier item of every pair comes
    strictly first. *)
Definition oldestFirst (l : list FeedItem.t) : Prop :=
  forall i j x y,
    nth_error l i = Some x -> nth_error l j = Some y ->
    earlier x y -> (i < j)%nat.

(** A second run of [syncFeed] on the ledger the first one left. *)
Definition secondRun `{Platform} (feedConfig : Feed) (client : diskuto.Client)
  : Run :=
  syncFeed feedConfig (ledger (syncFeed feedConfig client)).

Definition idempotentOn `{Platform} (feedConfig : Feed)
  (client : diskuto.Client) : Prop :=
  stored (secondRun feedConfig client) = [].

(** The state of the ledger when the loop of [syncCommand] reaches the
    feed that follows [done]. *)
Definition ledgerAfter `{Platform} (done : list Feed) (client : diskuto.Client)
  : diskuto.Client :=
  server (syncFeeds done client).

(** The milliseconds of an item with a valid date, and the order of items
    by them. *)
Definition millis (i : FeedItem.t) : Z :=
  match FeedItem.timestampMsUTC i with
  | Num z => z
  | NaN => 0
  end.

Definition byDate (a b : FeedItem.t) : Prop := (millis a <= millis b)%Z.

(* ================================================================= *)
(** * Sample platforms, feeds and ledgers *)

(** A converter that hands the text through: the rendering of a body
    without markup. *)
Definition plainText (body : option jsstring) : jsstring :=
  match body with
  | Some v => v
  | None => []
  end.

(** The modelled fragment of the regular expression engine; a pattern
    outside it is answered by a thrown SyntaxError. *)
Definition regExpSearch (s p : jsstring) : Result Z :=
  match RegExp.search s p with
  | Some i => Ok i
  | None => Throw SyntaxError
  end.

(** A platform that serves one feed under every URL and refuses the writes
    that [refused] names. *)
Definition serving (feed : rss.Feed)
  (refused : diskuto.UserID -> diskuto.Item -> bool) : Platform :=
  {| htmlToMarkdown := plainText;
     unescape := fun v => v;
     search := regExpSearch;
     readRSS := fun _ => Ok feed;
     putRefused := refused;
     loadConfig := fun _ => Throw ConfigError |}.

Definition acceptAll (_ : diskuto.UserID) (_ : diskuto.Item) : bool := false.

(** An entry with an identifier, a publish date and a plain body. *)
Definition entry (id : option jsstring) (date : Date) (body : jsstring)
  : rss.FeedEntry :=
  {| rss.id := id;
     rss.published := Some date;
     rss.dc_modified := None;
     rss.content := Some {| rss.type := Some rss.text; rss.value := Some body |};
     rss.description := None;
     rss.links := [];
     rss.title := None |}.

Definition feedOf (entries : list rss.FeedEntry) : rss.Feed :=
  {| rss.entries := entries |}.

Definition blog : Feed :=
  {| name := lit "Blog";
     rssUrl := lit "https://blog.example/feed.xml";
     userId := lit "user1";
     secretKey := lit "key1" |}.

Definition news : Feed :=
  {| name := lit "News";
     rssUrl := lit "https://news.example/rss";
     userId := lit "user2";
     secretKey := lit "key2" |}.

Definition emptyLedger : diskuto.Client := fun _ => [].

(** A post already on the ledger, with the marker of identifier [id]. *)
Definition postedAt (ms : Z) (id : jsstring) : diskuto.ItemListEntry :=
  diskuto.entryOf
    {| diskuto.timestampMsUtc := ms;
       diskuto.itemType := diskuto.post [] (addGUID (lit "old") (Some id)) |}.

Definition ledgerOf (l : list diskuto.ItemListEntry) : diskuto.Client :=
  fun u => if diskuto.sameUser u (userId blog) then l else [].

(** Three entries with valid dates, newest first as feeds list them. *)
Definition threeEntries : rss.Feed :=
  feedOf [ entry (Some (lit "urn:3")) (Num 1700000300000) (lit "third");
           entry (Some (lit "urn:2")) (Num 1700000200000) (lit "second");
           entry (Some (lit "urn:1")) (Num 1700000100000) (lit "first") ].

(** An entry without an identifier. *)
Definition anonymousEntry : rss.Feed :=
  feedOf [ entry None (Num 1700000100000) (lit "no id") ].

(** An entry whose identifier holds a [>]. *)
Definition bracketEntry : rss.Feed :=
  feedOf [ entry (Some (lit "a>b")) (Num 1700000100000) (lit "text") ].

(** An entry whose body holds a marker line of its own. *)
Definition quotingEntry : rss.Feed :=
  feedOf [ entry (Some (lit "urn:1")) (Num 1700000100000)
             (lit "See" ++ [LF] ++ marker (lit "urn:0")) ].

(** An entry with an invalid date between two dated ones. *)
Definition invalidDateFeed : rss.Feed :=
  feedOf [ entry (Some (lit "a")) (Num 3000000000) (lit "A");
           entry (Some (lit "b")) NaN (lit "B");
           entry (Some (lit "c")) (Num 1) (lit "C") ].

Definition ledgerWithB : diskuto.Client :=
  ledgerOf [ postedAt 3000000000 (lit "b") ].

(** Two entries under one identifier and a third; the ledger refuses the
    item dated 1700000200000. *)
Definition twinFeed : rss.Feed :=
  feedOf [ entry (Some (lit "urn:9")) (Num 1700000300000) (lit "other");
           entry (Some (lit "urn:1")) (Num 1700000200000) (lit "edited");
           entry (Some (lit "urn:1")) (Num 1700000100000) (lit "first") ].

Definition refuseSecond (_ : diskuto.UserID) (item : diskuto.Item) : bool :=
  (diskuto.timestampMsUtc item =? 1700000200000)%Z.

(** A feed whose first entry carries the epoch date. *)
Definition epochFeed : rss.Feed :=
  feedOf [ entry (Some (lit "urn:0")) (Num 0) (lit "zero") ].

(** The item that [fromEntry] makes of the second of the three entries,
    and a ledger on which it is already posted. *)
Definition secondItem : FeedItem.t :=
  {| FeedItem.guid := Some (lit "urn:2");
     FeedItem.title := None;
     FeedItem.markdown := addGUID (lit "second") (Some (lit "urn:2"));
     FeedItem.published := Num 1700000200000;
     FeedItem.timestampMsUTC := Num 1700000200000 |}.

Definition ledgerWithSecond : diskuto.Client :=
  ledgerOf [ postedAt 1700000200000 (lit "urn:2") ].

(** The data of an item dated at the epoch, and of one with an invalid
    date. *)
Definition epochData : ItemData.t :=
  {| ItemData.guid := Some (lit "urn:0");
     ItemData.title := Some (lit "Zero");
     ItemData.markdown := lit "zero";
     ItemData.published := Num 0 |}.

Definition invalidData : ItemData.t :=
  {| ItemData.guid := Some (lit "urn:x");
     ItemData.title := None;
     ItemData.markdown := lit "x";
     ItemData.published := NaN |}.

(** A configuration of two feeds on a network that fails to fetch the
    first and serves the second. *)
Definition twoFeeds : Config :=
  {| diskutoApi := lit "https://ledger.example"; feeds := [blog; news] |}.

Definition blogDown : Platform :=
  {| htmlToMarkdown := plainText;
     unescape := fun v => v;
     search := regExpSearch;
     readRSS := fun url =>
       if diskuto.sameUser url (rssUrl blog) then Throw (FetchError url)
       else Ok threeEntries;
     putRefused := acceptAll;
     loadConfig := fun _ => Ok twoFeeds |}.

Definition defaultOptions : MainOptions :=
  {| config := lit "rss-sync.toml"; debug := false; trace := false |}.

(** A body that quotes the address of its entry, and one that does not
    but holds a text the address matches as a pattern. *)
Definition linkURL : jsstring := Eval cbv in lit "https://example.com/post?id=1".
Definition quotingBody : jsstring :=
  Eval cbv in lit "Read https://example.com/post?id=1".
Definition dottedURL : jsstring := Eval cbv in lit "https://example.com/a.b".
Definition otherBody : jsstring := Eval cbv in lit "See https://example.com/a-b".

(** A feed with an entry dated at the epoch between two good ones. *)
Definition epochMiddleFeed : rss.Feed :=
  feedOf [ entry (Some (lit "urn:3")) (Num 1700000300000) (lit "third");
           entry (Some (lit "urn:0")) (Num 0) (lit "zero");
           entry (Some (lit "urn:1")) (Num 1700000100000) (lit "first") ].

(** The item of the entry with the invalid date. *)
Definition invalidItem : FeedItem.t :=
  {| FeedItem.guid := Some (lit "b");
     FeedItem.title := None;
     FeedItem.markdown := addGUID (lit "B") (Some (lit "b"));
     FeedItem.published := NaN;
     FeedItem.timestampMsUTC := NaN |}.

(** The item of the entry without identifier. *)
Definition anonymousItem : FeedItem.t :=
  {| FeedItem.guid := None;
     FeedItem.title := None;
     FeedItem.markdown := addGUID (lit "no id") None;
     FeedItem.published := Num 1700000100000;
     FeedItem.timestampMsUTC := Num 1700000100000 |}.

(** The item of the entry whose identifier holds a [>]; a post on the
    ledger that carries the placeholder as its marker, and one that carries
    the identifier without its [>]. *)
Definition bracketItem : FeedItem.t :=
  {| FeedItem.guid := Some (lit "a>b");
     FeedItem.title := None;
     FeedItem.markdown := addGUID (lit "text") (Some (lit "a>b"));
     FeedItem.published := Num 1700000100000;
     FeedItem.timestampMsUTC := Num 1700000100000 |}.

Definition placeholderPost : diskuto.ItemListEntry :=
  postedAt 1700000100000 UNDEFINED.

Definition strippedPost : diskuto.ItemListEntry :=
  postedAt 1700000100000 (lit "ab").

(* ================================================================= *)
(** * Profile synchronizer *)

(** The text of the profile: the three lines joined by a line feed, the
    second of them empty. *)
Definition profileText (feedConfig : Feed) : jsstring :=
  (lit "Posts from <" ++ rssUrl feedConfig ++ lit ">")
  ++ [LF] ++ [] ++ [LF]
  ++ lit "Sync'd by [@diskuto/rss-sync](https://jsr.io/@diskuto/rss-sync)".

Definition sameString (a b : jsstring) : bool :=
  if list_eq_dec N.eq_dec a b then true else false.

(** [client.getProfile] of the ledger client: the display name and the
    text of the newest profile record of the identity, [None] when it has
    none. *)
Fixpoint getProfile (entries : list diskuto.ItemListEntry)
  : option (jsstring * jsstring) :=
  match entries with
  | [] => None
  | e :: rest =>
      match diskuto.getItem e with
      | Some {| diskuto.itemType := diskuto.profile displayName about |} =>
          Some (displayName, about)
      | _ => getProfile rest
      end
  end.

(** What one call of [updateProfile] leaves: how it ended, the ledger, and
    the profile records it had acknowledged. *)
Record ProfileRun : Type := {
  profileOutcome : Result unit;
  profileLedger : diskuto.Client;
  profilesPut : list diskuto.Item
}.

(** [updateProfile]; [now] is what [Date.now()] answers in the call. *)
Definition updateProfile `{Platform} (now : Z) (feedConfig : Feed)
  (client : diskuto.Client) : ProfileRun :=
  let displayName := name feedConfig in
  let profileText := profileText feedConfig in
  let userID := userId feedConfig in
  let unchanged :=
    match getProfile (diskuto.getUserItems client userID) with
    | Some (currentName, currentAbout) =>
        sameString currentName displayName
        && sameString currentAbout profileText
    | None => false
    end in
  if unchanged
  then {| profileOutcome := Ok tt; profileLedger := client; profilesPut := [] |}
  else
    let item := {| diskuto.timestampMsUtc := now;
                   diskuto.itemType :=
                     diskuto.profile displayName profileText |} in
    match putItem client userID item with
    | Throw e =>
        {| profileOutcome := Throw e; profileLedger := client;
           profilesPut := [] |}
    | Ok client' =>
        {| profileOutcome := Ok tt; profileLedger := client';
           profilesPut := [item] |}
    end.

Definition profileContextOf (feedConfig : Feed) : jsstring :=
  lit "Updating profile for " ++
  (match name feedConfig with
   | [] => rssUrl feedConfig
   | n => n
   end).

Record ProfileBatch : Type := {
  visited : list Feed;            (* the feeds whose update was started *)
  failure : option Exn;           (* the exception that ended the loop *)
  profileServer : diskuto.Client
}.

(** The loop of [updateProfilesCommand]: no exception is caught, the first
    one ends the loop.  [clock n] is what [Date.now()] answers while the
    feed at position [n] is updated. *)
Fixpoint updateProfiles `{Platform} (clock : nat -> Z) (n : nat)
  (feeds : list Feed) (client : diskuto.Client) : ProfileBatch :=
  match feeds with
  | [] => {| visited := []; failure := None; profileServer := client |}
  | feed :: rest =>
      let r := updateProfile (clock n) feed client in
      match errorContext (profileContextOf feed) (profileOutcome r) with
      | Throw e =>
          {| visited := [feed]; failure := Some e;
             profileServer := profileLedger r |}
      | Ok _ =>
          let b := updateProfiles clock (S n) rest (profileLedger r) in
          {| visited := feed :: visited b;
             failure := failure b;
             profileServer := profileServer b |}
      end
  end.

(** [updateProfilesCommand]. *)
Definition updateProfilesCommand `{Platform} (clock : nat -> Z)
  (options : MainOptions) (client : diskuto.Client) : Exit * ProfileBatch :=
  match errorContext (lit "Reading " ++ config options)
                     (loadConfig (config options)) with
  | Throw e =>
      (Uncaught e,
       {| visited := []; failure := Some e; profileServer := client |})
  | Ok config =>
      let b := updateProfiles clock 0 (feeds config) client in
      match failure b with
      | Some e => (Uncaught e, b)
      | None => (Returned, b)
      end
  end.

(* ================================================================= *)
(** * Configuration (config.ts) *)

(** The object that the TOML text parses to, its fields still strings. *)
Record RawFeed : Type := {
  rawName : jsstring;
  rawRssUrl : jsstring;
  rawUserId : jsstring;
  rawSecretKey : jsstring
}.

Record RawConfig : Type := {
  rawDiskutoApi : jsstring;
  rawFeeds : list RawFeed
}.

(** What the schemas call from outside: the URL test of the validation
    library, the decoders of identities and keys, the identity of a key,
    the TOML parser and the file system. *)
Class ConfigTools : Type := {
  isURL : jsstring -> bool;
  tryFromString : jsstring -> option diskuto.UserID;
  fromBase58 : jsstring -> Result diskuto.PrivateKey;
  userIDOf : diskuto.PrivateKey -> diskuto.UserID;
  parseToml : jsstring -> Result RawConfig;
  readTextFile : jsstring -> Result jsstring
}.

Definition nonEmpty (s : jsstring) : bool :=
  match s with
  | [] => false
  | _ :: _ => true
  end.

(** The schema [Feed]: the feed it parses to, [None] when it raises an
    issue.  The issues themselves are not modelled. *)
Definition parseFeed `{ConfigTools} (raw : RawFeed) : option Feed :=
  if nonEmpty (rawName raw) && isURL (rawRssUrl raw)
     && nonEmpty (rawUserId raw) && nonEmpty (rawSecretKey raw)
  then
    match tryFromString (rawUserId raw), fromBase58 (rawSecretKey raw) with
    | Some id, Ok key =>
        if sameString id (userIDOf key)
        then Some {| name := rawName raw;
                     rssUrl := rawRssUrl raw;
                     userId := id;
                     secretKey := key |}
        else None
    | _, _ => None
    end
  else None.

Fixpoint parseFeeds `{ConfigTools} (raws : list RawFeed) : option (list Feed) :=
  match raws with
  | [] => Some []
  | raw :: rest =>
      match parseFeed raw, parseFeeds rest with
      | Some f, Some fs => Some (f :: fs)
      | _, _ => None
      end
  end.

(** The loop of the refinement of [Config]: the first identity met
    twice. *)
Fixpoint repeatedUserID (ids : StringSet.t) (feeds : list Feed)
  : option diskuto.UserID :=
  match feeds with
  | [] => None
  | feed :: rest =>
      let uid := userId feed in
      if StringSet.has ids (Some uid) then Some uid
      else repeatedUserID (StringSet.add uid ids) rest
  end.

(** [Config.parse]: it throws when any issue was raised, by a field, by
    the empty list of feeds, by a feed, or by an identity used twice. *)
Definition parseConfig `{ConfigTools} (raw : RawConfig) : Result Config :=
  if isURL (rawDiskutoApi raw)
  then
    match rawFeeds raw with
    | [] => Throw ConfigError
    | _ :: _ =>
        match parseFeeds (rawFeeds raw) with
        | None => Throw ConfigError
        | Some fs =>
            match repeatedUserID StringSet.empty fs with
            | Some _ => Throw ConfigError
            | None => Ok {| diskutoApi := rawDiskutoApi raw; feeds := fs |}
            end
        end
    end
  else Throw ConfigError.

(** [loadFile] and [load]. *)
Definition loadFile `{ConfigTools} (fileName : jsstring) : Result jsstring :=
  match readTextFile fileName with
  | Ok text => Ok text
  | Throw error =>
      Throw (WithContext
               (lit "Error reading file " ++ [QUOTE] ++ fileName ++ [QUOTE])
               error)
  end.

Definition load `{ConfigTools} (fileName : jsstring) : Result Config :=
  let* text := loadFile fileName in
  let* obj := parseToml text in
  parseConfig obj.

(** Configuration tools that take a string starting with [https://] for a
    URL, every string for an identity and a key, and a key for its own
    identity; the file parses to two feeds. *)
Definition rawBlog : RawFeed :=
  {| rawName := lit "Blog";
     rawRssUrl := lit "https://blog.example/feed.xml";
     rawUserId := lit "user1";
     rawSecretKey := lit "user1" |}.

Definition rawNews : RawFeed :=
  {| rawName := lit "News";
     rawRssUrl := lit "https://news.example/rss";
     rawUserId := lit "user2";
     rawSecretKey := lit "user2" |}.

Definition sampleTools : ConfigTools :=
  {| isURL := startsWith (lit "https://");
     tryFromString := fun s => Some s;
     fromBase58 := fun s => Ok s;
     userIDOf := fun key => key;
     parseToml := fun _ =>
       Ok {| rawDiskutoApi := lit "https://ledger.example";
             rawFeeds := [rawBlog; rawNews] |};
     readTextFile := fun _ => Ok [] |}.

(** A platform that serves the three entries and refuses every write to
    the identity of the news feed. *)
Definition refuseNews (u : diskuto.UserID) (_ : diskuto.Item) : bool :=
  diskuto.sameUser u (userId news).

Definition newsFirst : Config :=
  {| diskutoApi := lit "https://ledger.example"; feeds := [news; blog] |}.

Definition newsRefused : Platform :=
  {| htmlToMarkdown := plainText;
     unescape := fun v => v;
     search := regExpSearch;
     readRSS := fun _ => Ok threeEntries;
     putRefused := refuseNews;
     loadConfig := fun _ => Ok newsFirst |}.

Definition tick (n : nat) : Z := 1700000000000 + Z.of_nat n.

(** An entry whose link holds an opening parenthesis that nothing closes:
    a text that is no pattern. *)
Definition badLinkEntry : rss.FeedEntry :=
  {| rss.id := Some (lit "urn:5");
     rss.published := Some (Num 1700000500000);
     rss.dc_modified := None;
     rss.content := None;
     rss.description :=
       Some {| rss.type := Some rss.html; rss.value := Some (lit "text") |};
     rss.links := [ {| rss.href := Some (lit "https://x.example/(a") |} ];
     rss.title := None |}.

(* ================================================================= *)
(** * The marker codec: proofs *)

Lemma matchLiteral_app_some (l t r u : jsstring) :
  matchLiteral l t = Some r -> matchLiteral l (t ++ u) = Some (r ++ u).
Proof.
  revert t; induction l as [|a l IH]; intros t; simpl.
  - intros H; inversion H; reflexivity.
  - destruct t as [|c t]; [discriminate|]. simpl.
    destruct (a =? c)%N; [apply IH | discriminate].
Qed.

Lemma matchLiteral_app_none (l t u : jsstring) (x : N) :
  ~ In x l -> matchLiteral l t = None -> matchLiteral l (t ++ x :: u) = None.
Proof.
  revert t; induction l as [|a l IH]; intros [|c t] Hx; simpl; try congruence.
  - intros _. destruct (N.eqb_spec a x) as [->|]; [|reflexivity].
    exfalso; apply Hx; now left.
  - destruct (a =? c)%N; [|reflexivity].
    apply IH. intros Hin; apply Hx; now right.
Qed.

Lemma matchLiteral_cons (a c : N) (l s : jsstring) :
  matchLiteral (a :: l) (c :: s) =
  if (a =? c)%N then matchLiteral l s else None.
Proof. reflexivity. Qed.

Lemma matchLiteral_exact (l s r : jsstring) :
  matchLiteral l s = Some r -> s = l ++ r.
Proof.
  revert s; induction l as [|a l IH]; intros [|c s]; simpl; try congruence.
  destruct (N.eqb_spec a c) as [->|]; [|discriminate].
  intros H; f_equal; now apply IH.
Qed.

Lemma matchLiteral_prefix (l r : jsstring) : matchLiteral l (l ++ r) = Some r.
Proof.
  induction l as [|a l IH]; simpl; [reflexivity|].
  now rewrite N.eqb_refl.
Qed.

Lemma span_app (p : N -> bool) (t u : jsstring) :
  span p (t ++ u) =
  match span p t with
  | (g, []) => let (g', r') := span p u in (g ++ g', r')
  | (g, r) => (g, r ++ u)
  end.
Proof.
  induction t as [|c t IH]; simpl.
  - now destruct (span p u).
  - destruct (p c); [|reflexivity].
    rewrite IH. destruct (span p t) as [g [|x r]]; [|reflexivity].
    now destruct (span p u).
Qed.

Lemma span_all (p : N -> bool) (s g r : jsstring) :
  span p s = (g, r) -> Forall (fun c => p c = true) g /\ s = g ++ r.
Proof.
  revert g r; induction s as [|c s IH]; simpl; intros g r H.
  - inversion H; subst; split; [constructor | reflexivity].
  - destruct (p c) eqn:Hc.
    + destruct (span p s) as [g' r']. inversion H; subst.
      destruct (IH g' r eq_refl) as [Hall ->].
      split; [now constructor | reflexivity].
    + inversion H; subst; split; [constructor | reflexivity].
Qed.

Lemma span_run (p : N -> bool) (g r : jsstring) (x : N) :
  Forall (fun c => p c = true) g -> p x = false ->
  span p (g ++ x :: r) = (g, x :: r).
Proof.
  intros Hg Hx; induction Hg as [|c g Hc _ IH]; simpl.
  - now rewrite Hx.
  - now rewrite Hc, IH.
Qed.

Lemma guidChar_spec (c : N) : guidChar c = true <-> c <> QUOTE /\ c <> GT.
Proof.
  unfold guidChar.
  destruct (N.eqb_spec c QUOTE), (N.eqb_spec c GT); simpl; intuition congruence.
Qed.

Lemma Forall_guidChar (g : jsstring) :
  Forall (fun c => guidChar c = true) g <-> ~ In QUOTE g /\ ~ In GT g.
Proof.
  rewrite Forall_forall; split.
  - intros H; split; intros Hin; apply H in Hin; apply guidChar_spec in Hin;
      intuition congruence.
  - intros [Hq Hg] c Hin; apply guidChar_spec; split; intros ->; auto.
Qed.

Lemma stripQuoteGt_guidChar (v : jsstring) :
  Forall (fun c => guidChar c = true) (stripQuoteGt v).
Proof.
  apply Forall_forall; intros c Hin.
  now apply filter_In in Hin.
Qed.

(** Whatever one attempt of the pattern captures is a non-empty run of
    code units of the class, between the two literals. *)
Lemma matchGUIDAt_some (s g : jsstring) :
  matchGUIDAt s = Some g ->
  g <> [] /\ Forall (fun c => guidChar c = true) g /\
  exists rest, s = marker g ++ rest.
Proof.
  unfold matchGUIDAt, marker.
  destruct (matchLiteral GUID_OPEN s) as [r|] eqn:Ho; [|discriminate].
  destruct (span guidChar r) as [g0 r0] eqn:Hs.
  destruct g0 as [|c g0]; [discriminate|].
  destruct (matchLiteral GUID_CLOSE r0) as [rest|] eqn:Hc; [|discriminate].
  intros H; inversion H; subst g.
  apply span_all in Hs as [Hall ->].
  apply matchLiteral_exact in Ho, Hc; subst.
  split; [discriminate|]. split; [assumption|].
  exists rest. now rewrite <- !app_assoc.
Qed.

Lemma matchGUIDAt_marker (g rest : jsstring) :
  g <> [] -> Forall (fun c => guidChar c = true) g ->
  matchGUIDAt (marker g ++ rest) = Some g.
Proof.
  intros Hne Hg. unfold matchGUIDAt, marker.
  rewrite <- app_assoc, matchLiteral_prefix.
  rewrite <- app_assoc.
  change (GUID_CLOSE ++ rest) with (QUOTE :: (tl GUID_CLOSE ++ rest)).
  rewrite span_run by (assumption || reflexivity).
  destruct g as [|c g]; [congruence|].
  change (QUOTE :: tl GUID_CLOSE ++ rest) with (GUID_CLOSE ++ rest).
  now rewrite matchLiteral_prefix.
Qed.

(** After the opening quote of the appended marker the closing literal
    cannot match: the identifier holds no [>]. *)
Lemma close_not_at_open (g : jsstring) :
  Forall (fun c => guidChar c = true) g ->
  matchLiteral GUID_CLOSE (QUOTE :: g ++ GUID_CLOSE) = None.
Proof.
  intros Hg.
  change GUID_CLOSE with (QUOTE :: 32 :: 45 :: 45 :: [GT])%N at 1.
  rewrite matchLiteral_cons, N.eqb_refl.
  destruct g as [|a g]; [reflexivity|]. inversion Hg as [|? ? _ Hg1]; subst.
  rewrite <- app_comm_cons, matchLiteral_cons.
  destruct (32 =? a)%N; [|reflexivity].
  destruct g as [|b g]; [reflexivity|]. inversion Hg1 as [|? ? _ Hg2]; subst.
  rewrite <- app_comm_cons, matchLiteral_cons.
  destruct (45 =? b)%N; [|reflexivity].
  destruct g as [|c g]; [reflexivity|]. inversion Hg2 as [|? ? _ Hg3]; subst.
  rewrite <- app_comm_cons, matchLiteral_cons.
  destruct (45 =? c)%N; [|reflexivity].
  destruct g as [|d g]; [reflexivity|]. inversion Hg3 as [|? ? Hd _]; subst.
  rewrite <- app_comm_cons, matchLiteral_cons.
  apply guidChar_spec in Hd as [_ Hd].
  destruct (N.eqb_spec GT d) as [<-|]; [now elim Hd | reflexivity].
Qed.

Lemma LF_not_in_open : ~ In LF GUID_OPEN.
Proof. cbv; intuition discriminate. Qed.

Lemma LF_not_in_close : ~ In LF GUID_CLOSE.
Proof. cbv; intuition discriminate. Qed.

(** Appending a blank line and a marker changes no attempt that starts
    in the text before them. *)
Lemma matchGUIDAt_before_marker (t g : jsstring) :
  Forall (fun c => guidChar c = true) g ->
  matchGUIDAt (t ++ BLANK_LINE ++ marker g) = matchGUIDAt t.
Proof.
  intros Hg. unfold matchGUIDAt.
  destruct (matchLiteral GUID_OPEN t) as [r|] eqn:Ho.
  - rewrite (@matchLiteral_app_some _ _ _ _ Ho).
    rewrite span_app.
    destruct (span guidChar r) as [g0 [|x r0]] eqn:Hs.
    + replace (span guidChar (BLANK_LINE ++ marker g))
        with (BLANK_LINE ++ removelast GUID_OPEN, QUOTE :: g ++ GUID_CLOSE)
        by reflexivity.
      rewrite close_not_at_open by assumption.
      destruct g0; reflexivity.
    + destruct g0 as [|c g0]; [reflexivity|].
      destruct (matchLiteral GUID_CLOSE (x :: r0)) as [r1|] eqn:Hc.
      * now rewrite (@matchLiteral_app_some _ _ _ _ Hc).
      * change (BLANK_LINE ++ marker g) with (LF :: (LF :: marker g)).
        now rewrite (@matchLiteral_app_none _ _ _ _ LF_not_in_close Hc).
  - change (BLANK_LINE ++ marker g) with (LF :: (LF :: marker g)).
    now rewrite (@matchLiteral_app_none _ _ _ _ LF_not_in_open Ho).
Qed.

Lemma firstGUID_hit (s g : jsstring) :
  matchGUIDAt s = Some g -> firstGUID true s = Some g.
Proof.
  destruct s as [|c s]; [discriminate|].
  cbn [firstGUID]. now intros ->.
Qed.

Lemma firstGUID_marker (b : bool) (g : jsstring) :
  g <> [] -> Forall (fun c => guidChar c = true) g ->
  firstGUID b (BLANK_LINE ++ marker g) = Some g.
Proof.
  intros Hne Hg.
  assert (Hlf : forall s, matchGUIDAt (LF :: s) = None) by reflexivity.
  change (BLANK_LINE ++ marker g) with (LF :: LF :: marker g).
  cbn [firstGUID]. rewrite !Hlf.
  change (isLineTerminator LF) with true.
  replace (if b then None else None) with (@None jsstring) by now destruct b.
  apply firstGUID_hit. rewrite <- (app_nil_r (marker g)).
  now apply matchGUIDAt_marker.
Qed.

Lemma firstGUID_before_marker (b : bool) (t g : jsstring) :
  g <> [] -> Forall (fun c => guidChar c = true) g ->
  firstGUID b (t ++ BLANK_LINE ++ marker g) =
  match firstGUID b t with
  | Some x => Some x
  | None => Some g
  end.
Proof.
  intros Hne Hg. revert b; induction t as [|c t IH]; intros b.
  - now apply firstGUID_marker.
  - change ((c :: t) ++ BLANK_LINE ++ marker g)
      with (c :: (t ++ BLANK_LINE ++ marker g)).
    cbn [firstGUID].
    change (c :: (t ++ BLANK_LINE ++ marker g))
      with ((c :: t) ++ BLANK_LINE ++ marker g).
    rewrite matchGUIDAt_before_marker by assumption.
    destruct (if b then matchGUIDAt (c :: t) else None); [reflexivity|].
    apply IH.
Qed.

Lemma matchAllFrom_first (b : bool) (s : jsstring) :
  hd_error (matchAllFrom 0 b s) = firstGUID b s.
Proof.
  revert b; induction s as [|c s IH]; intros b; [reflexivity|].
  cbn [matchAllFrom firstGUID].
  destruct (if b then matchGUIDAt (c :: s) else None); [reflexivity|].
  apply IH.
Qed.

Lemma findGUID_firstGUID (markdown : jsstring) :
  findGUID markdown = firstGUID true markdown.
Proof.
  unfold findGUID, matchAll. rewrite <- matchAllFrom_first.
  now destruct (matchAllFrom 0 true markdown).
Qed.

Lemma firstGUID_some (b : bool) (s g : jsstring) :
  firstGUID b s = Some g ->
  g <> [] /\ Forall (fun c => guidChar c = true) g.
Proof.
  revert b; induction s as [|c s IH]; intros b; [discriminate|].
  cbn [firstGUID].
  destruct (if b then matchGUIDAt (c :: s) else None) as [g'|] eqn:Hm.
  - intros H; inversion H; subst g'. destruct b; [|discriminate].
    apply matchGUIDAt_some in Hm. tauto.
  - apply IH.
Qed.

(** Trailing white space plays no part in a match: every match ends in
    [>]. *)
Lemma dropWhile_split (p : N -> bool) (s : jsstring) :
  exists w, s = w ++ dropWhile p s /\ Forall (fun c => p c = true) w.
Proof.
  induction s as [|c s [w [Hs Hw]]]; simpl.
  - exists []; split; [reflexivity | constructor].
  - destruct (p c) eqn:Hc.
    + exists (c :: w); split; [simpl; congruence | now constructor].
    + exists []; split; [reflexivity | constructor].
Qed.

Lemma trimEnd_split (s : jsstring) :
  exists w, s = trimEnd s ++ w /\ Forall (fun c => isTrimmable c = true) w.
Proof.
  destruct (dropWhile_split isTrimmable (rev s)) as [w [Hs Hw]].
  exists (rev w); split.
  - unfold trimEnd. rewrite <- rev_app_distr, <- Hs. now rewrite rev_involutive.
  - now apply Forall_rev.
Qed.

Lemma isTrimmable_guidChar (c : N) : isTrimmable c = true -> guidChar c = true.
Proof.
  intros H; apply guidChar_spec; split; intros ->; vm_compute in H; discriminate.
Qed.

Lemma matchLiteral_trailing (l t w : jsstring) :
  l <> [] -> ~ In (last l 0%N) w ->
  matchLiteral l t = None -> matchLiteral l (t ++ w) = None.
Proof.
  revert t w; induction l as [|a l IH]; intros t w Hne Hlast; [congruence|].
  destruct t as [|c t].
  - intros _. destruct w as [|c w]; [reflexivity|].
    cbn [app]. rewrite matchLiteral_cons.
    destruct (N.eqb_spec a c) as [->|]; [|reflexivity].
    destruct l as [|b l].
    + exfalso; apply Hlast; now left.
    + apply (IH [] w); [discriminate | | reflexivity].
      intros Hin; apply Hlast; now right.
  - cbn [app]. rewrite !matchLiteral_cons.
    destruct (a =? c)%N; [|reflexivity].
    destruct l as [|b l]; [discriminate|].
    apply IH; [discriminate | exact Hlast].
Qed.

Lemma span_whole (p : N -> bool) (w : jsstring) :
  Forall (fun c => p c = true) w -> span p w = (w, []).
Proof.
  induction 1 as [|c w Hc _ IH]; simpl; [reflexivity|].
  now rewrite Hc, IH.
Qed.

Lemma matchGUIDAt_trailing (t w : jsstring) :
  Forall (fun c => guidChar c = true) w ->
  matchGUIDAt (t ++ w) = matchGUIDAt t.
Proof.
  intros Hw. pose proof (proj1 (Forall_guidChar w) Hw) as [Hq Hg].
  unfold matchGUIDAt.
  destruct (matchLiteral GUID_OPEN t) as [r|] eqn:Ho.
  - rewrite (@matchLiteral_app_some _ _ _ _ Ho), span_app.
    destruct (span guidChar r) as [g0 [|x r0]] eqn:Hs.
    + rewrite (span_whole _ Hw). destruct w, g0; reflexivity.
    + destruct g0 as [|c g0]; [reflexivity|].
      destruct (matchLiteral GUID_CLOSE (x :: r0)) as [r1|] eqn:Hc.
      * now rewrite (@matchLiteral_app_some _ _ _ _ Hc).
      * rewrite (@matchLiteral_trailing GUID_CLOSE (x :: r0) w);
          [reflexivity | now unfold GUID_CLOSE | exact Hg | exact Hc].
  - rewrite (@matchLiteral_trailing GUID_OPEN t w);
      [reflexivity | now unfold GUID_OPEN | exact Hq | exact Ho].
Qed.

Lemma matchGUIDAt_head (c : N) (s g : jsstring) :
  matchGUIDAt (c :: s) = Some g -> c = LT.
Proof.
  intros H. apply matchGUIDAt_some in H as (_ & _ & rest & H).
  now inversion H.
Qed.

Lemma firstGUID_skip (s x : jsstring) :
  ~ In LT s -> (forall b, firstGUID b x = None) ->
  forall b, firstGUID b (s ++ x) = None.
Proof.
  intros Hs Hx. induction s as [|c s IH]; intros b; [apply Hx|].
  cbn [app firstGUID].
  destruct (if b then matchGUIDAt (c :: s ++ x) else None) as [g|] eqn:Hm.
  - destruct b; [|discriminate]. apply matchGUIDAt_head in Hm.
    exfalso; apply Hs; now left.
  - apply IH. intros Hin; apply Hs; now right.
Qed.

Lemma firstGUID_needs_quote (b : bool) (s : jsstring) :
  ~ In QUOTE s -> firstGUID b s = None.
Proof.
  revert b; induction s as [|c s IH]; intros b Hq; [reflexivity|].
  cbn [firstGUID].
  destruct (if b then matchGUIDAt (c :: s) else None) as [g|] eqn:Hm.
  - destruct b; [|discriminate].
    apply matchGUIDAt_some in Hm as (_ & _ & rest & Hm).
    exfalso; apply Hq; rewrite Hm. unfold marker.
    rewrite <- app_assoc. apply in_or_app; left.
    unfold GUID_OPEN, QUOTE; simpl; tauto.
  - apply IH. intros Hin; apply Hq; now right.
Qed.

Lemma firstGUID_trailing (b : bool) (t w : jsstring) :
  Forall (fun c => guidChar c = true) w ->
  firstGUID b (t ++ w) = firstGUID b t.
Proof.
  intros Hw. revert b; induction t as [|c t IH]; intros b.
  - cbn [app firstGUID]. apply firstGUID_needs_quote.
    now apply Forall_guidChar in Hw.
  - change ((c :: t) ++ w) with (c :: (t ++ w)). cbn [firstGUID].
    change (c :: (t ++ w)) with ((c :: t) ++ w).
    rewrite matchGUIDAt_trailing by assumption.
    destruct (if b then matchGUIDAt (c :: t) else None); [reflexivity|].
    apply IH.
Qed.

Lemma findGUID_trimEnd (markdown : jsstring) :
  findGUID (trimEnd markdown) = findGUID markdown.
Proof.
  destruct (trimEnd_split markdown) as [w [Hs Hw]].
  rewrite !findGUID_firstGUID. rewrite Hs at 2.
  symmetry; apply firstGUID_trailing.
  eapply Forall_impl; [|exact Hw]. apply isTrimmable_guidChar.
Qed.

(** What decoding finds in an encoded body: the body's own first marker
    if it has one, else the appended identifier. *)
Lemma findGUID_addGUID (markdown : jsstring) (guid : option jsstring) :
  normalizeGUID guid <> [] ->
  findGUID (addGUID markdown guid) =
  match findGUID markdown with
  | Some g => Some g
  | None => Some (normalizeGUID guid)
  end.
Proof.
  intros Hne. unfold addGUID.
  rewrite <- (findGUID_trimEnd markdown), !findGUID_firstGUID.
  apply firstGUID_before_marker; [assumption|].
  destruct guid as [[|c v]|]; try (apply (stripQuoteGt_guidChar (c :: v))).
  all: apply Forall_guidChar; cbv; intuition discriminate.
Qed.

(** C2 (as amended): for every body text in which decoding finds no marker
    and every identifier that keeps at least one code unit once its double
    quotes and [>] are removed, encoding with [addGUID] and decoding with
    [findGUID] recovers the identifier with those characters removed. *)
Theorem addGUID_findGUID_roundtrip (markdown guid : jsstring) :
  findGUID markdown = None ->
  stripQuoteGt guid <> [] ->
  roundTrips markdown guid.
Proof.
  intros Hbody Hid. unfold roundTrips.
  assert (Hn : normalizeGUID (Some guid) = stripQuoteGt guid).
  { destruct guid; [now elim Hid | reflexivity]. }
  rewrite findGUID_addGUID by (rewrite Hn; assumption).
  now rewrite Hbody, Hn.
Qed.

Lemma addGUID_findGUID_roundtrip_witness :
  roundTrips (lit "Hello, world.  ") (QUOTE :: lit "urn:7>x").
Proof.
  apply addGUID_findGUID_roundtrip; [reflexivity | discriminate].
Defined.

(** Of two marker lines the first is decoded; a marker that does not
    start its line is none. *)
Example first_marker_wins :
  findGUID (marker (lit "one") ++ [LF] ++ marker (lit "two")) = Some (lit "one").
Proof. reflexivity. Qed.

Example marker_inside_a_line :
  findGUID (lit "see " ++ marker (lit "one")) = None.
Proof. reflexivity. Qed.

(** C2 (as stated) fails: a body that already holds a marker line decodes
    to that line's identifier; an identifier made of quotes alone leaves an
    empty marker that is not found; the empty identifier is encoded as the
    placeholder. *)
Lemma marker_roundtrip_breaks :
  ~ roundTrips (marker (lit "x")) (lit "y")
  /\ ~ roundTrips (lit "text") [QUOTE]
  /\ ~ roundTrips (lit "text") [].
Proof.
  unfold roundTrips; repeat split; vm_compute; discriminate.
Qed.

(** C10: [findGUID] answers null or a non-empty string free of double
    quotes and of [>]; a marker whose quoted identifier is empty matches
    nowhere, and a text holding it and no other [<] decodes to null. *)
Theorem findGUID_null_or_clean :
  (forall markdown g,
      findGUID markdown = Some g ->
      g <> [] /\ ~ In QUOTE g /\ ~ In GT g)
  /\ (forall rest, matchGUIDAt (marker [] ++ rest) = None)
  /\ (forall before after,
         ~ In LT before -> ~ In LT after ->
         findGUID (before ++ marker [] ++ after) = None).
Proof.
  assert (Hempty : forall rest, matchGUIDAt (marker [] ++ rest) = None).
  { intros rest. unfold matchGUIDAt, marker.
    rewrite <- app_assoc, matchLiteral_prefix. reflexivity. }
  split; [|split].
  - intros markdown g H. rewrite findGUID_firstGUID in H.
    apply firstGUID_some in H as [Hne Hg].
    apply Forall_guidChar in Hg. tauto.
  - exact Hempty.
  - intros before after Hb Ha. rewrite findGUID_firstGUID.
    apply firstGUID_skip; [assumption|]. intros b.
    change (marker [] ++ after) with (LT :: (tl (marker []) ++ after)).
    cbn [firstGUID].
    change (LT :: (tl (marker []) ++ after)) with (marker [] ++ after).
    rewrite Hempty. replace (if b then None else None) with (@None jsstring)
      by now destruct b.
    apply firstGUID_skip.
    + cbv; intuition discriminate.
    + intros b'. rewrite <- (app_nil_r after).
      apply firstGUID_skip; [assumption | reflexivity].
Qed.

Lemma findGUID_null_or_clean_witness :
  (lit "abc" <> [] /\ ~ In QUOTE (lit "abc") /\ ~ In GT (lit "abc"))
  /\ findGUID (lit "Some text" ++ [LF] ++ marker [] ++ [LF]) = None.
Proof.
  split.
  - apply (proj1 findGUID_null_or_clean (marker (lit "abc"))). reflexivity.
  - apply (proj2 (proj2 findGUID_null_or_clean) (lit "Some text" ++ [LF]) [LF]);
      cbv; intuition discriminate.
Defined.

(* ================================================================= *)
(** * The history scanner: proofs *)

Lemma StringSet_has_In (s : StringSet.t) (g : jsstring) :
  StringSet.has s (Some g) = true <-> In g s.
Proof.
  unfold StringSet.has.
  destruct (in_dec (list_eq_dec N.eq_dec) g s); split; auto; discriminate.
Qed.

Lemma StringSet_add_In (s : StringSet.t) (x g : jsstring) :
  In g (StringSet.add x s) <-> g = x \/ In g s.
Proof.
  unfold StringSet.add.
  destruct (StringSet.has s (Some x)) eqn:Hx.
  - apply StringSet_has_In in Hx. split; [auto|]. now intros [->|].
  - rewrite in_app_iff; simpl. intuition.
Qed.

Lemma truthy_findGUID (body g : jsstring) :
  findGUID body = Some g -> truthy (Some g) = true.
Proof.
  intros H. rewrite findGUID_firstGUID in H.
  apply firstGUID_some in H as [Hne _]. now destruct g.
Qed.

Lemma bigint_lt_number_tooOld (oldestTimestamp : number)
  (e : diskuto.ItemListEntry) :
  bigint_lt_number (diskuto.entryTimestampMsUtc e)
    (sub oldestTimestamp (Num ONE_WEEK_MS)) = true
  <-> tooOld oldestTimestamp e.
Proof.
  destruct oldestTimestamp as [|t]; simpl.
  - split; [discriminate | tauto].
  - change ONE_WEEK_MS with 604800000%Z. apply Z.ltb_lt.
Qed.

(** One turn of the loop: the set after an entry that is inside the
    window holds one more identifier exactly when the entry is a marked
    post. *)
Lemma scanEntries_step (cutoff : number) (e : diskuto.ItemListEntry)
  (rest : list diskuto.ItemListEntry) (guids : StringSet.t) :
  bigint_lt_number (diskuto.entryTimestampMsUtc e) cutoff = false ->
  exists guids',
    scanEntries cutoff (e :: rest) guids = scanEntries cutoff rest guids'
    /\ forall g, In g guids' <-> In g guids \/ postMarked e g.
Proof.
  intros Hin. cbn [scanEntries]. rewrite Hin.
  destruct e as [ts [[ms [title body|dn about|txt]]|]]; cbn [diskuto.getItem].
  2-4: exists guids; split; [reflexivity|]; intros g; split; [auto|];
       intros [H|(ms' & t' & b' & H & _)]; [assumption | discriminate].
  destruct (findGUID body) as [g0|] eqn:Hf.
  - rewrite (truthy_findGUID _ Hf).
    exists (StringSet.add g0 guids); split; [reflexivity|].
    intros g; rewrite StringSet_add_In. split.
    + intros [->|H]; [right | now left].
      exists ms, title, body; now split.
    + intros [H|(ms' & t' & b' & H & Hg)]; [now right|].
      inversion H; subst. left; congruence.
  - exists guids; split; [reflexivity|]. intros g; split; [auto|].
    intros [H|(ms' & t' & b' & H & Hg)]; [assumption|].
    inversion H; subst; congruence.
Qed.

Lemma scanEntries_window (oldestTimestamp : number)
  (entries : list diskuto.ItemListEntry) (guids : StringSet.t) :
  exists scanned rest,
    entries = scanned ++ rest
    /\ Forall (inWindow oldestTimestamp) scanned
    /\ match rest with
       | [] => True
       | e :: _ => tooOld oldestTimestamp e
       end
    /\ forall g,
        In g (scanEntries (sub oldestTimestamp (Num ONE_WEEK_MS)) entries guids)
        <-> In g guids \/ exists e, In e scanned /\ postMarked e g.
Proof.
  revert guids; induction entries as [|e entries IH]; intros guids.
  - exists [], []; repeat split; auto. intros [H|(e & [] & _)]; assumption.
  - destruct (bigint_lt_number (diskuto.entryTimestampMsUtc e)
                (sub oldestTimestamp (Num ONE_WEEK_MS))) eqn:Hlt.
    + exists [], (e :: entries); repeat split; auto.
      * now apply bigint_lt_number_tooOld.
      * cbn [scanEntries]. rewrite Hlt. auto.
      * cbn [scanEntries]. rewrite Hlt.
        intros [H|(e' & [] & _)]; assumption.
    + destruct (@scanEntries_step _ e entries guids Hlt) as (guids' & -> & Hg').
      destruct (IH guids') as (scanned & rest & -> & Hw & Hstop & Hset).
      exists (e :: scanned), rest; repeat split; auto.
      * constructor; [|assumption].
        intros Hold; apply bigint_lt_number_tooOld in Hold; congruence.
      * intros H; apply Hset in H as [H|(e' & He' & Hm)].
        -- apply Hg' in H as [H|H]; [now left|].
           right; exists e; split; [now left | assumption].
        -- right; exists e'; split; [now right | assumption].
      * intros H; apply Hset. rewrite Hg'.
        destruct H as [H|(e' & [<-|He'] & Hm)]; [tauto | tauto |].
        right; exists e'; now split.
Qed.

(** On a list that is newest first, whatever lies behind a too old entry
    is too old as well: the scan reads exactly the window. *)
Lemma newestFirst_window (oldestTimestamp : number)
  (scanned rest : list diskuto.ItemListEntry) (e : diskuto.ItemListEntry) :
  newestFirst (scanned ++ rest) ->
  match rest with
  | [] => True
  | x :: _ => tooOld oldestTimestamp x
  end ->
  In e (scanned ++ rest) -> inWindow oldestTimestamp e -> In e scanned.
Proof.
  intros Hs Hstop Hin Hw. apply in_app_or in Hin as [H|H]; [assumption|].
  exfalso. destruct rest as [|x rest]; [contradiction|].
  induction scanned as [|y scanned IH].
  - cbn [app] in Hs. apply StronglySorted_inv in Hs as [_ Hall].
    destruct H as [->|H]; [now apply Hw|].
    rewrite Forall_forall in Hall. apply Hall in H.
    apply Hw. unfold tooOld in *. destruct oldestTimestamp; [assumption|lia].
  - cbn [app] in Hs. apply StronglySorted_inv in Hs as [Hs _]. now apply IH.
Qed.

Lemma getSeenGUIDs_newestFirst (client : diskuto.Client)
  (userID : diskuto.UserID) (oldestTimestamp : number) (g : jsstring) :
  newestFirst (diskuto.getUserItems client userID) ->
  (In g (getSeenGUIDs client userID oldestTimestamp) <->
   exists e, In e (diskuto.getUserItems client userID)
             /\ inWindow oldestTimestamp e /\ postMarked e g).
Proof.
  intros Hs. unfold getSeenGUIDs.
  destruct (scanEntries_window oldestTimestamp
              (diskuto.getUserItems client userID) StringSet.empty)
    as (scanned & rest & Heq & Hw & Hstop & Hset).
  rewrite Hset. rewrite Heq in *. split.
  - intros [[]|(e & He & Hm)]. exists e; repeat split; auto.
    + apply in_or_app; now left.
    + rewrite Forall_forall in Hw; now apply Hw.
  - intros (e & He & Hin & Hm). right; exists e; split; [|assumption].
    eapply newestFirst_window; eauto.
Qed.

(** C5: the history scanner walks the entries in the order of the stream
    and stops at the first one strictly older than the oldest pending
    timestamp minus one week (604800000 ms); its result holds exactly the
    identifiers that [findGUID] decodes from the bodies of the post records
    met before that point.  Records that are no posts add nothing. *)
Theorem getSeenGUIDs_scans_window (client : diskuto.Client)
  (userID : diskuto.UserID) (oldestTimestamp : number) :
  exists scanned rest,
    diskuto.getUserItems client userID = scanned ++ rest
    /\ Forall (inWindow oldestTimestamp) scanned
    /\ match rest with
       | [] => True
       | e :: _ => tooOld oldestTimestamp e
       end
    /\ forall g,
        In g (getSeenGUIDs client userID oldestTimestamp)
        <-> exists e, In e scanned /\ postMarked e g.
Proof.
  destruct (scanEntries_window oldestTimestamp
              (diskuto.getUserItems client userID) StringSet.empty)
    as (scanned & rest & Heq & Hw & Hstop & Hset).
  exists scanned, rest; repeat split; auto.
  - intros H; apply Hset in H as [[]|H]; assumption.
  - intros H; apply Hset; now right.
Qed.

(* ================================================================= *)
(** * Sorting and storing: proofs *)

Section SortFacts.

Variable A : Type.
Variable comparefn : A -> A -> number.

Lemma insert_In (x z : A) (l : list A) :
  In z (insert comparefn x l) <-> z = x \/ In z l.
Proof.
  induction l as [|y l IH]; simpl; [intuition|].
  destruct (sortCompare comparefn x y <=? 0)%Z; simpl; [intuition|].
  rewrite IH; intuition.
Qed.

Lemma sort_In (z : A) (l : list A) :
  In z (sort comparefn l) <-> In z l.
Proof.
  induction l as [|y l IH]; simpl; [tauto|].
  rewrite insert_In, IH; intuition.
Qed.

Lemma insert_Permutation (x : A) (l : list A) :
  Permutation (insert comparefn x l) (x :: l).
Proof.
  induction l as [|y l IH]; simpl; [reflexivity|].
  destruct (sortCompare comparefn x y <=? 0)%Z; [reflexivity|].
  rewrite IH. apply perm_swap.
Qed.

Lemma sort_Permutation (l : list A) : Permutation (sort comparefn l) l.
Proof.
  induction l as [|y l IH]; simpl; [reflexivity|].
  now rewrite insert_Permutation, IH.
Qed.

End SortFacts.

Lemma sortCompare_valid (x y : FeedItem.t) :
  isValid (FeedItem.timestampMsUTC x) = true ->
  isValid (FeedItem.timestampMsUTC y) = true ->
  sortCompare FeedItem.sortByDate x y = (millis x - millis y)%Z.
Proof.
  unfold sortCompare, FeedItem.sortByDate, millis.
  destruct (FeedItem.timestampMsUTC x), (FeedItem.timestampMsUTC y);
    simpl; intros; try discriminate; reflexivity.
Qed.

Lemma insert_byDate (x : FeedItem.t) (l : list FeedItem.t) :
  isValid (FeedItem.timestampMsUTC x) = true -> validDates l ->
  StronglySorted byDate l ->
  StronglySorted byDate (insert FeedItem.sortByDate x l).
Proof.
  intros Hx Hl Hs. induction Hs as [|y l Hs IH Hall]; simpl.
  - repeat constructor.
  - inversion Hl as [|? ? Hy Hl']; subst.
    rewrite sortCompare_valid by assumption.
    destruct (Z.leb_spec (millis x - millis y) 0).
    + constructor; [now constructor|].
      constructor; [unfold byDate; lia|].
      eapply Forall_impl; [|exact Hall]. unfold byDate; intros; lia.
    + constructor; [now apply IH|].
      apply Forall_forall; intros z Hz. apply insert_In in Hz as [->|Hz].
      * unfold byDate; lia.
      * rewrite Forall_forall in Hall; now apply Hall.
Qed.

Lemma sort_validDates (l : list FeedItem.t) :
  validDates l -> validDates (sort FeedItem.sortByDate l).
Proof.
  unfold validDates; rewrite !Forall_forall.
  intros H x Hx; apply H. now apply sort_In in Hx.
Qed.

(** With valid dates the comparator is consistent and the sort puts the
    items in ascending order of their timestamps. *)
Lemma sort_byDate (l : list FeedItem.t) :
  validDates l -> StronglySorted byDate (sort FeedItem.sortByDate l).
Proof.
  induction 1 as [|x l Hx Hl IH]; simpl; [constructor|].
  apply insert_byDate; [assumption | now apply sort_validDates | assumption].
Qed.

Lemma StronglySorted_filter {A} (R : A -> A -> Prop) (f : A -> bool)
  (l : list A) :
  StronglySorted R l -> StronglySorted R (filter f l).
Proof.
  induction 1 as [|x l Hs IH Hall]; simpl; [constructor|].
  destruct (f x); [|assumption]. constructor; [assumption|].
  apply Forall_forall; intros y Hy. apply filter_In in Hy as [Hy _].
  rewrite Forall_forall in Hall; now apply Hall.
Qed.

Lemma StronglySorted_prefix {A} (R : A -> A -> Prop) (l rest : list A) :
  StronglySorted R (l ++ rest) -> StronglySorted R l.
Proof.
  induction l as [|x l IH]; simpl; intros H; [constructor|].
  apply StronglySorted_inv in H as [Hs Hall]. constructor; [now apply IH|].
  apply Forall_app in Hall; tauto.
Qed.

Lemma StronglySorted_nth {A} (R : A -> A -> Prop) (l : list A) :
  StronglySorted R l ->
  forall i j x y, (i < j)%nat ->
    nth_error l i = Some x -> nth_error l j = Some y -> R x y.
Proof.
  induction 1 as [|z l Hs IH Hall]; intros i j x y Hij Hi Hj.
  - now destruct i.
  - destruct j as [|j]; [lia|]. simpl in Hj. destruct i as [|i]; simpl in Hi.
    + inversion Hi; subst. rewrite Forall_forall in Hall.
      apply Hall. eapply nth_error_In; eauto.
    + apply (IH i j); auto; lia.
Qed.

Lemma byDate_oldestFirst (l : list FeedItem.t) :
  StronglySorted byDate l -> oldestFirst l.
Proof.
  intros Hs i j x y Hi Hj He.
  assert (Hlt : (millis x < millis y)%Z).
  { unfold earlier, millis in *.
    destruct (FeedItem.timestampMsUTC x), (FeedItem.timestampMsUTC y);
      tauto. }
  destruct (Nat.lt_trichotomy i j) as [H|[H|H]]; [assumption| |].
  - subst j. rewrite Hi in Hj; inversion Hj; subst; lia.
  - pose proof (StronglySorted_nth Hs H Hj Hi) as Hle.
    unfold byDate in Hle; lia.
Qed.

(** The ledger after a write. *)
Lemma sameUser_refl (u : diskuto.UserID) : diskuto.sameUser u u = true.
Proof.
  unfold diskuto.sameUser. now destruct (list_eq_dec N.eq_dec u u).
Qed.

Lemma insertNewestFirst_In (e x : diskuto.ItemListEntry)
  (l : list diskuto.ItemListEntry) :
  In x (diskuto.insertNewestFirst e l) <-> x = e \/ In x l.
Proof.
  induction l as [|y l IH]; simpl; [intuition|].
  destruct (diskuto.entryTimestampMsUtc e <? diskuto.entryTimestampMsUtc y)%Z;
    simpl; [rewrite IH|]; intuition.
Qed.

Lemma insertNewestFirst_sorted (e : diskuto.ItemListEntry)
  (l : list diskuto.ItemListEntry) :
  newestFirst l -> newestFirst (diskuto.insertNewestFirst e l).
Proof.
  unfold newestFirst. induction 1 as [|y l Hs IH Hall]; simpl.
  - repeat constructor.
  - destruct (Z.ltb_spec (diskuto.entryTimestampMsUtc e)
                         (diskuto.entryTimestampMsUtc y)).
    + constructor; [assumption|].
      apply Forall_forall; intros z Hz.
      apply insertNewestFirst_In in Hz as [->|Hz]; [lia|].
      rewrite Forall_forall in Hall; now apply Hall.
    + constructor; [now constructor|].
      constructor; [lia|].
      eapply Forall_impl; [|exact Hall]. simpl; intros; lia.
Qed.

Lemma toProtobuf_ok (i : FeedItem.t) (item : diskuto.Item) :
  FeedItem.toProtobuf i = Ok item ->
  diskuto.timestampMsUtc item = millis i
  /\ isValid (FeedItem.timestampMsUTC i) = true
  /\ exists title,
       diskuto.itemType item = diskuto.post title (FeedItem.markdown i).
Proof.
  unfold FeedItem.toProtobuf, millis.
  destruct (FeedItem.timestampMsUTC i); [discriminate|].
  intros H; inversion H; subst; simpl. repeat split. eauto.
Qed.

(** What the publishing loop leaves: the acknowledged items are a prefix
    of the items it was given, all of them when it ends well; each of them
    is on the ledger of the identity; no entry of the ledger is lost, and
    the order of the ledger is kept. *)
Lemma storeItems_spec `{Platform} (userID : diskuto.UserID)
  (items : list FeedItem.t) (client : diskuto.Client) :
  let r := storeItems userID items client in
  (exists rest, items = stored r ++ rest)
  /\ (outcome r = Ok tt -> stored r = items)
  /\ (forall e, In e (client userID) -> In e (ledger r userID))
  /\ (newestFirst (client userID) -> newestFirst (ledger r userID))
  /\ (forall i, In i (stored r) ->
        exists item, FeedItem.toProtobuf i = Ok item
                     /\ In (diskuto.entryOf item) (ledger r userID)).
Proof.
  revert client; induction items as [|i items IH]; intros client; cbn zeta.
  - simpl. repeat split; auto; try (now exists []). intros i [].
  - cbn [storeItems].
    destruct (FeedItem.toProtobuf i) as [bytes|e] eqn:Hp.
    2: { simpl. repeat split; auto; try discriminate.
         - now exists (i :: items).
         - intros ? []. }
    unfold putItem. destruct (putRefused userID bytes).
    { simpl. repeat split; auto; try discriminate.
      - now exists (i :: items).
      - intros ? []. }
    specialize (IH (diskuto.store client userID bytes)).
    cbn zeta in IH. destruct IH as ((rest & Hrest) & Hok & Hkeep & Hsort & Hin).
    set (r := storeItems userID items (diskuto.store client userID bytes)) in *.
    assert (Hstore : diskuto.store client userID bytes userID =
                     diskuto.insertNewestFirst (diskuto.entryOf bytes)
                                               (client userID)).
    { unfold diskuto.store. now rewrite sameUser_refl. }
    simpl. repeat split.
    + exists rest. simpl. now f_equal.
    + intros Hr. f_equal. now apply Hok.
    + intros e He. apply Hkeep. rewrite Hstore.
      apply insertNewestFirst_In. now right.
    + intros Hs. apply Hsort. rewrite Hstore.
      now apply insertNewestFirst_sorted.
    + intros j [<-|Hj]; [|now apply Hin].
      exists bytes; split; [assumption|]. apply Hkeep. rewrite Hstore.
      apply insertNewestFirst_In. now left.
Qed.

(** [syncFeed] once the feed is read and normalized: the publishing loop
    over what the filter leaves of the sorted items. *)
Lemma syncFeed_pending `{Platform} (feedConfig : Feed)
  (client : diskuto.Client) (items : list FeedItem.t) :
  pending feedConfig = Ok items ->
  syncFeed feedConfig client =
  storeItems (userId feedConfig)
    (unseen client (userId feedConfig) (sort FeedItem.sortByDate items))
    client.
Proof.
  unfold pending, syncFeed.
  destruct (readRSS (rssUrl feedConfig)) as [feed|e]; [|discriminate].
  cbn [bind]. intros ->.
  destruct items as [|i items]; [reflexivity|].
  now destruct (unseen client (userId feedConfig)
                  (sort FeedItem.sortByDate (i :: items))).
Qed.

Lemma syncFeed_failed `{Platform} (feedConfig : Feed)
  (client : diskuto.Client) (e : Exn) :
  pending feedConfig = Throw e ->
  syncFeed feedConfig client = quiet client (Throw e).
Proof.
  unfold pending, syncFeed.
  destruct (readRSS (rssUrl feedConfig)) as [feed|e']; cbn [bind].
  - now intros ->.
  - now intros [= ->].
Qed.

Lemma unseen_filter (client : diskuto.Client) (userID : diskuto.UserID)
  (items : list FeedItem.t) :
  unseen client userID (sort FeedItem.sortByDate items) =
  filter (fun i => negb (StringSet.has
                           (getSeenGUIDs client userID (oldestPending items))
                           (FeedItem.guid i)))
         (sort FeedItem.sortByDate items).
Proof.
  unfold unseen, oldestPending.
  now destruct (sort FeedItem.sortByDate items).
Qed.

(* ================================================================= *)
(** * The reconciler: deduplication, order, idempotence *)

Lemma filter_nil {A} (f : A -> bool) (l : list A) :
  (forall x, In x l -> f x = false) -> filter f l = [].
Proof.
  induction l as [|x l IH]; intros H; simpl; [reflexivity|].
  rewrite (H x) by now left. apply IH. intros y Hy; apply H; now right.
Qed.

Lemma stored_unseen `{Platform} (feedConfig : Feed) (client : diskuto.Client)
  (items : list FeedItem.t) (i : FeedItem.t) :
  pending feedConfig = Ok items ->
  In i (stored (syncFeed feedConfig client)) ->
  In i (unseen client (userId feedConfig) (sort FeedItem.sortByDate items)).
Proof.
  intros Hp Hi. rewrite (syncFeed_pending _ _ Hp) in Hi.
  destruct (storeItems_spec (userId feedConfig)
              (unseen client (userId feedConfig)
                 (sort FeedItem.sortByDate items)) client)
    as ((rest & Hrest) & _).
  rewrite Hrest. apply in_or_app; now left.
Qed.

(** C3 (as amended): an entry whose identifier, as the filter compares it
    (the id of the entry as the feed gives it), is decoded from a post
    record inside the scan window of a newest-first ledger is removed by
    the filter and is not submitted by [syncFeed]. *)
Theorem syncFeed_skips_seen `{Platform} (feedConfig : Feed)
  (client : diskuto.Client) (items : list FeedItem.t)
  (e : diskuto.ItemListEntry) (g : jsstring) :
  pending feedConfig = Ok items ->
  newestFirst (diskuto.getUserItems client (userId feedConfig)) ->
  In e (diskuto.getUserItems client (userId feedConfig)) ->
  inWindow (oldestPending items) e ->
  postMarked e g ->
  forall i, FeedItem.guid i = Some g ->
    ~ In i (unseen client (userId feedConfig)
              (sort FeedItem.sortByDate items))
    /\ ~ In i (stored (syncFeed feedConfig client)).
Proof.
  intros Hp Hs He Hw Hm i Hi.
  assert (Hun : ~ In i (unseen client (userId feedConfig)
                          (sort FeedItem.sortByDate items))).
  { rewrite unseen_filter. intros Hin. apply filter_In in Hin as [_ Hin].
    rewrite Hi in Hin. apply negb_true_iff in Hin.
    assert (Hseen : In g (getSeenGUIDs client (userId feedConfig)
                            (oldestPending items))).
    { apply getSeenGUIDs_newestFirst; [assumption|]. exists e; auto. }
    apply StringSet_has_In in Hseen. congruence. }
  split; [assumption|].
  intros Hin. apply Hun. eapply stored_unseen; eauto.
Qed.

Lemma syncFeed_skips_seen_witness :
  let P := serving threeEntries acceptAll in
  In secondItem (sort FeedItem.sortByDate
                   (match @pending P blog with Ok l => l | Throw _ => [] end))
  /\ ~ In secondItem (stored (@syncFeed P blog ledgerWithSecond)).
Proof.
  intros P. split.
  - vm_compute. tauto.
  - eapply (@syncFeed_skips_seen P blog ledgerWithSecond _
              (postedAt 1700000200000 (lit "urn:2")) (lit "urn:2")).
    + reflexivity.
    + repeat constructor.
    + left; reflexivity.
    + vm_compute. intros H; discriminate H.
    + eexists _, _, _; split; reflexivity.
    + reflexivity.
Defined.

(** C3 (as stated) fails.  The marker carries the normalized identifier,
    the filter compares the id as the feed gives it.  An entry without id
    is marked with the placeholder, an entry whose id holds a [>] with the
    id without it: a post with that very marker stands inside the scan
    window, the body of the item decodes to the same marker, and the item
    passes the filter and is stored again. *)
Lemma syncFeed_stores_marked_entry :
  (postMarked placeholderPost (normalizeGUID None)
   /\ inWindow (oldestPending [anonymousItem]) placeholderPost
   /\ findGUID (FeedItem.markdown anonymousItem) = Some (normalizeGUID None)
   /\ stored (@syncFeed (serving anonymousEntry acceptAll) blog
                (ledgerOf [placeholderPost])) = [anonymousItem])
  /\ (postMarked strippedPost (normalizeGUID (Some (lit "a>b")))
      /\ inWindow (oldestPending [bracketItem]) strippedPost
      /\ findGUID (FeedItem.markdown bracketItem)
         = Some (normalizeGUID (Some (lit "a>b")))
      /\ stored (@syncFeed (serving bracketEntry acceptAll) blog
                   (ledgerOf [strippedPost])) = [bracketItem]).
Proof.
  split; (split; [eexists _, _, _; split; reflexivity|]);
    (split; [vm_compute; intros Hold; discriminate Hold|]);
    split; reflexivity.
Qed.

(** A feed of three entries, none seen before: three records, oldest
    first. *)
Example fresh_feed_stores_all :
  map FeedItem.timestampMsUTC
    (stored (@syncFeed (serving threeEntries acceptAll) blog emptyLedger))
  = [Num 1700000100000; Num 1700000200000; Num 1700000300000].
Proof. reflexivity. Qed.

(** The same feed when the second entry is already on the ledger. *)
Example seen_entry_is_left_out :
  map FeedItem.timestampMsUTC
    (stored (@syncFeed (serving threeEntries acceptAll) blog ledgerWithSecond))
  = [Num 1700000100000; Num 1700000300000].
Proof. reflexivity. Qed.

(** An entry dated at the epoch makes the whole run fail. *)
Example epoch_entry_aborts_the_feed :
  outcome (@syncFeed (serving epochFeed acceptAll) blog emptyLedger)
  = Throw EpochDate.
Proof. reflexivity. Qed.

(** With valid dates the items go to the ledger oldest first: for every
    pair of submitted items, the one with the earlier timestamp is
    submitted strictly first. *)
Lemma syncFeed_oldest_first `{Platform} (feedConfig : Feed)
  (client : diskuto.Client) (items : list FeedItem.t) :
  pending feedConfig = Ok items -> validDates items ->
  oldestFirst (stored (syncFeed feedConfig client)).
Proof.
  intros Hp Hv. rewrite (syncFeed_pending _ _ Hp).
  apply byDate_oldestFirst.
  destruct (storeItems_spec (userId feedConfig)
              (unseen client (userId feedConfig)
                 (sort FeedItem.sortByDate items)) client)
    as ((rest & Hrest) & _).
  apply StronglySorted_prefix with (rest := rest). rewrite <- Hrest.
  rewrite unseen_filter. apply StronglySorted_filter. now apply sort_byDate.
Qed.

(** C4, at the failing input: a feed with an item of invalid date between
    two dated items, the invalid one already on the ledger.  The
    comparator answers NaN against the invalid date, the sort leaves the
    three items as they came, and the item dated 3000000000 is submitted
    before the item dated 1. *)
Theorem syncFeed_invalid_date_breaks_order :
  let run := @syncFeed (serving invalidDateFeed acceptAll) blog ledgerWithB in
  outcome run = Ok tt
  /\ map FeedItem.timestampMsUTC (stored run) = [Num 3000000000; Num 1]
  /\ ~ oldestFirst (stored run).
Proof.
  intros run. split; [reflexivity|]. split; [reflexivity|].
  intros Hof. specialize (Hof 1%nat 0%nat). vm_compute in Hof.
  specialize (Hof _ _ eq_refl eq_refl eq_refl). inversion Hof.
Qed.

Lemma oldestPending_least (items : list FeedItem.t) (i : FeedItem.t) :
  validDates items -> In i items ->
  exists t, oldestPending items = Num t /\ (t <= millis i)%Z.
Proof.
  intros Hv Hi. unfold oldestPending.
  pose proof (sort_byDate Hv) as Hs.
  pose proof (sort_validDates Hv) as Hv'.
  apply (sort_In FeedItem.sortByDate) in Hi.
  destruct (sort FeedItem.sortByDate items) as [|o l]; [contradiction|].
  inversion Hv' as [|? ? Ho _]; subst.
  exists (millis o). split.
  - unfold millis. now destruct (FeedItem.timestampMsUTC o).
  - apply StronglySorted_inv in Hs as [_ Hall].
    destruct Hi as [<-|Hi]; [lia|].
    rewrite Forall_forall in Hall. now apply Hall.
Qed.

(** An item that was stored stands on the ledger as a post inside the
    window of the next scan, marked with what its body decodes to. *)
Lemma stored_entry_seen (items : list FeedItem.t) (i : FeedItem.t)
  (item : diskuto.Item) (g : jsstring) :
  validDates items -> In i items ->
  FeedItem.toProtobuf i = Ok item ->
  findGUID (FeedItem.markdown i) = Some g ->
  inWindow (oldestPending items) (diskuto.entryOf item)
  /\ postMarked (diskuto.entryOf item) g.
Proof.
  intros Hv Hi Hp Hg.
  destruct (@oldestPending_least items i Hv Hi) as (t & Ht & Hle).
  apply toProtobuf_ok in Hp as (Hms & _ & title & Hty).
  split.
  - unfold inWindow, tooOld. rewrite Ht. simpl. lia.
  - destruct item as [ms ty]; simpl in *. subst ty.
    exists ms, title, (FeedItem.markdown i). now split.
Qed.

(** The shape of a normalized item: the identifier of its entry, and a
    body that ends in the marker of that identifier. *)
Lemma fromEntry_shape `{Platform} (item : rss.FeedEntry) (i : FeedItem.t) :
  FeedItem.fromEntry item = Ok (Some i) ->
  FeedItem.guid i = rss.id item
  /\ exists body, FeedItem.markdown i = addGUID body (rss.id item).
Proof.
  unfold FeedItem.fromEntry.
  destruct (FeedItem.orElse (rss.published item) (rss.dc_modified item))
    as [published|]; [|discriminate].
  match goal with
  | |- context [bind ?r _] => destruct r as [body|e]; [|discriminate]
  end.
  cbn [bind]. unfold FeedItem.new. cbn [FeedItem.timestampMsUTC].
  destruct (isZero _); [discriminate|]. cbn [bind].
  intros Hit; inversion Hit; subst; simpl. split; [reflexivity|].
  now exists body.
Qed.

(** An item decodes to its own identifier when that identifier is not
    empty, holds no double quote and no [>], and the body it was added to
    holds no marker. *)
Lemma marked_decodesToItself (i : FeedItem.t) (body g : jsstring) :
  FeedItem.guid i = Some g ->
  FeedItem.markdown i = addGUID body (Some g) ->
  findGUID body = None -> g <> [] -> stripQuoteGt g = g ->
  decodesToItself i.
Proof.
  intros Hg Hmd Hbody Hne Hclean. unfold decodesToItself.
  rewrite Hmd, Hg. split; [|discriminate].
  assert (Hn : normalizeGUID (Some g) = g).
  { destruct g; [congruence | exact Hclean]. }
  rewrite findGUID_addGUID by (rewrite Hn; assumption).
  now rewrite Hbody, Hn.
Qed.

(** C1 (as amended): when every normalized item of the feed has a valid
    date and a body that decodes to the very identifier the filter
    compares, the ledger streams newest first, and the first run ends
    without an error, a second run on the same feed and on the ledger the
    first run left submits nothing: every item is found in the seen-set. *)
Theorem syncFeed_idempotent `{Platform} (feedConfig : Feed)
  (client : diskuto.Client) (items : list FeedItem.t) :
  pending feedConfig = Ok items ->
  validDates items ->
  Forall decodesToItself items ->
  newestFirst (diskuto.getUserItems client (userId feedConfig)) ->
  outcome (syncFeed feedConfig client) = Ok tt ->
  idempotentOn feedConfig client.
Proof.
  intros Hp Hv Hd Hs Hok. unfold idempotentOn, secondRun.
  rewrite (syncFeed_pending _ (ledger (syncFeed feedConfig client)) Hp).
  rewrite (syncFeed_pending _ client Hp) in *.
  set (uid := userId feedConfig) in *.
  set (S := sort FeedItem.sortByDate items) in *.
  destruct (storeItems_spec uid (unseen client uid S) client)
    as (_ & Hall & Hkeep & Hsort & Hin).
  set (r1 := storeItems uid (unseen client uid S) client) in *.
  specialize (Hall Hok). specialize (Hsort Hs).
  replace (unseen (ledger r1) uid S) with (@nil FeedItem.t); [reflexivity|].
  symmetry. unfold S. rewrite unseen_filter. apply filter_nil.
  intros i Hi. apply negb_false_iff.
  assert (Hi' : In i items) by now apply (sort_In FeedItem.sortByDate).
  rewrite Forall_forall in Hd. destruct (Hd i Hi') as [Hself Hsome].
  destruct (FeedItem.guid i) as [g|] eqn:Hg; [|congruence].
  apply StringSet_has_In. apply getSeenGUIDs_newestFirst; [exact Hsort|].
  destruct (StringSet.has (getSeenGUIDs client uid (oldestPending items))
              (Some g)) eqn:Hseen.
  - apply StringSet_has_In in Hseen.
    apply getSeenGUIDs_newestFirst in Hseen as (e & He & Hw & Hm);
      [|exact Hs].
    exists e; repeat split; auto.
  - assert (Hun : In i (unseen client uid S)).
    { unfold S. rewrite unseen_filter. apply filter_In. split; [exact Hi|].
      rewrite Hg. now rewrite Hseen. }
    rewrite <- Hall in Hun. apply Hin in Hun as (item & Hitem & Hon).
    exists (diskuto.entryOf item). split; [exact Hon|].
    eapply stored_entry_seen; eauto.
Qed.

Lemma syncFeed_idempotent_witness :
  @idempotentOn (serving threeEntries acceptAll) blog emptyLedger.
Proof.
  eapply (@syncFeed_idempotent (serving threeEntries acceptAll)
            blog emptyLedger).
  - reflexivity.
  - repeat constructor.
  - repeat constructor; discriminate.
  - constructor.
  - reflexivity.
Defined.

(** C1 (as stated) fails.  In each case the second run submits an item
    again: an entry without identifier, whose item the seen-set never
    holds; an entry whose body carries a marker line of its own, which is
    the one decoded; an entry whose identifier holds a [>], compared
    unnormalized against the normalized marker; an item of invalid date
    that upsets the order, so that a stored item falls outside the next
    scan; a first run that the ledger cut short. *)
Lemma syncFeed_idempotence_fails :
  ~ @idempotentOn (serving anonymousEntry acceptAll) blog emptyLedger
  /\ ~ @idempotentOn (serving quotingEntry acceptAll) blog emptyLedger
  /\ ~ @idempotentOn (serving bracketEntry acceptAll) blog emptyLedger
  /\ ~ @idempotentOn (serving invalidDateFeed acceptAll) blog ledgerWithB
  /\ ~ @idempotentOn (serving twinFeed refuseSecond) blog emptyLedger.
Proof.
  unfold idempotentOn; repeat split; vm_compute; discriminate.
Qed.

(* ================================================================= *)
(** * The constructor of FeedItem *)

(** C6: the constructor throws for every item data whose publish date has
    the millisecond value 0, whatever the other fields. *)
Theorem FeedItem_new_rejects_epoch (data : ItemData.t) :
  valueOf (ItemData.published data) = Num 0 ->
  FeedItem.new data = Throw EpochDate.
Proof.
  intros H. unfold FeedItem.new. cbn [FeedItem.timestampMsUTC].
  now rewrite H.
Qed.

Lemma FeedItem_new_rejects_epoch_witness :
  FeedItem.new epochData = Throw EpochDate.
Proof.
  apply FeedItem_new_rejects_epoch. reflexivity.
Defined.

(** C9: the constructor succeeds for every publish timestamp other than
    zero, and then keeps the data as they are; an invalid date (NaN) and
    the dates before the epoch are among them. *)
Theorem FeedItem_new_accepts_nonzero :
  (forall data,
      valueOf (ItemData.published data) <> Num 0 ->
      FeedItem.new data =
      Ok {| FeedItem.guid := ItemData.guid data;
            FeedItem.title := ItemData.title data;
            FeedItem.markdown := ItemData.markdown data;
            FeedItem.published := ItemData.published data;
            FeedItem.timestampMsUTC := valueOf (ItemData.published data) |})
  /\ (forall guid title markdown,
         threw (FeedItem.new {| ItemData.guid := guid;
                                ItemData.title := title;
                                ItemData.markdown := markdown;
                                ItemData.published := NaN |}) = false)
  /\ (forall guid title markdown ms,
         (ms < 0)%Z ->
         threw (FeedItem.new {| ItemData.guid := guid;
                                ItemData.title := title;
                                ItemData.markdown := markdown;
                                ItemData.published := Num ms |}) = false).
Proof.
  assert (Hgen : forall data,
             valueOf (ItemData.published data) <> Num 0 ->
             isZero (valueOf (ItemData.published data)) = false).
  { intros data H. destruct (valueOf (ItemData.published data)) as [|z];
      [reflexivity|]. simpl. apply Z.eqb_neq. congruence. }
  split; [|split].
  - intros data H. unfold FeedItem.new. cbn [FeedItem.timestampMsUTC].
    now rewrite Hgen.
  - reflexivity.
  - intros guid title markdown ms Hms. unfold FeedItem.new.
    cbn [FeedItem.timestampMsUTC ItemData.published valueOf isZero].
    destruct (Z.eqb_spec ms 0); [lia | reflexivity].
Qed.

Lemma FeedItem_new_accepts_nonzero_witness :
  threw (FeedItem.new invalidData) = false
  /\ threw (FeedItem.new {| ItemData.guid := None;
                            ItemData.title := None;
                            ItemData.markdown := [];
                            ItemData.published := Num (-86400000) |}) = false.
Proof.
  split.
  - rewrite (proj1 FeedItem_new_accepts_nonzero invalidData);
      [reflexivity | discriminate].
  - apply (proj2 (proj2 FeedItem_new_accepts_nonzero)). reflexivity.
Defined.

(* ================================================================= *)
(** * The backlink *)

Lemma serving_searchIsRegExp (feed : rss.Feed)
  (refused : diskuto.UserID -> diskuto.Item -> bool) :
  searchIsRegExp (serving feed refused).
Proof.
  intros s p i Hs. simpl. unfold regExpSearch. now rewrite Hs.
Qed.

(** C7, at the failing input: [addURL] asks [search], which reads the
    address as a regular expression.  In the address of the first body the
    [?] makes the [t] before it optional, the pattern does not match the
    address itself, and the backlink is appended to a body that holds the
    address as literal text.  The second address matches, by its dot, a
    body that does not hold it, and no backlink is appended. *)
Theorem addURL_reads_url_as_pattern (P : Platform) :
  searchIsRegExp P ->
  (includes quotingBody linkURL = true
   /\ @addURL P quotingBody linkURL = Ok (withBacklink quotingBody linkURL)
   /\ withBacklink quotingBody linkURL <> quotingBody)
  /\ (includes otherBody dottedURL = false
      /\ @addURL P otherBody dottedURL = Ok otherBody).
Proof.
  intros HP. repeat split.
  - unfold addURL. rewrite (HP quotingBody linkURL (-1)%Z); reflexivity.
  - vm_compute; discriminate.
  - unfold addURL. rewrite (HP otherBody dottedURL 4%Z); reflexivity.
Qed.

Lemma addURL_reads_url_as_pattern_witness :
  @addURL (serving threeEntries acceptAll) quotingBody linkURL
  = Ok (withBacklink quotingBody linkURL).
Proof.
  apply (addURL_reads_url_as_pattern (serving_searchIsRegExp _ _)).
Defined.

(* ================================================================= *)
(** * The batch driver *)

Lemma threw_errorContext {A} (context : jsstring) (r : Result A) :
  threw (errorContext context r) = threw r.
Proof. now destruct r. Qed.

Lemma syncFeeds_app `{Platform} (done rest : list Feed)
  (client : diskuto.Client) :
  syncFeeds (done ++ rest) client =
  let b1 := syncFeeds done client in
  let b2 := syncFeeds rest (server b1) in
  {| attempts := attempts b1 ++ attempts b2;
     errors := errors b1 ++ errors b2;
     server := server b2 |}.
Proof.
  revert client; induction done as [|f done IH]; intros client.
  - simpl. now destruct (syncFeeds rest client).
  - cbn [app syncFeeds]. rewrite IH. cbn zeta. cbn [attempts errors server].
    now rewrite <- !app_assoc.
Qed.

Lemma syncFeeds_attempts `{Platform} (l : list Feed) (client : diskuto.Client) :
  map fst (attempts (syncFeeds l client)) = l.
Proof.
  revert client; induction l as [|f l IH]; intros client; [reflexivity|].
  cbn [syncFeeds attempts map fst]. now rewrite IH.
Qed.

Lemma syncFeeds_errors `{Platform} (l : list Feed) (client : diskuto.Client) :
  errors (syncFeeds l client) <> [] <->
  exists f r, In (f, r) (attempts (syncFeeds l client)) /\ threw r = true.
Proof.
  revert client; induction l as [|f l IH]; intros client.
  - simpl. split; [congruence | intros (? & ? & [] & _)].
  - cbn [syncFeeds attempts errors].
    destruct (errorContext (contextOf f) (outcome (syncFeed f client)))
      as [[]|e] eqn:Hr.
    + cbn [app]. rewrite IH. split.
      * intros (f' & r & Hin & Ht). exists f', r; split; [now right|assumption].
      * intros (f' & r & [Heq|Hin] & Ht); [|now exists f', r].
        inversion Heq; subst; discriminate.
    + split; [|discriminate]. intros _.
      exists f, (Throw e); split; [now left | reflexivity].
Qed.

(** C8: once the configuration is loaded, [syncCommand] attempts every
    feed of it, in order, each on the ledger as the feeds before it left
    it, whether or not they failed; it ends in [Deno.exit(1)] exactly when
    the sync of at least one feed raised an error, and returns
    otherwise. *)
Theorem syncCommand_attempts_every_feed `{Platform} (options : MainOptions)
  (client : diskuto.Client) (cfg : Config) :
  loadConfig (config options) = Ok cfg ->
  let exit := fst (syncCommand options client) in
  let batch := snd (syncCommand options client) in
  map fst (attempts batch) = feeds cfg
  /\ (forall done feedConfig rest,
         feeds cfg = done ++ feedConfig :: rest ->
         nth_error (attempts batch) (List.length done) =
         Some (feedConfig,
               errorContext (contextOf feedConfig)
                 (outcome (syncFeed feedConfig (ledgerAfter done client)))))
  /\ (exit = Exited 1 <->
      exists done feedConfig rest,
        feeds cfg = done ++ feedConfig :: rest
        /\ threw (outcome (syncFeed feedConfig (ledgerAfter done client)))
           = true)
  /\ (exit = Exited 1 \/ exit = Returned).
Proof.
  intros Hcfg. unfold syncCommand. rewrite Hcfg. cbn [errorContext].
  set (b := syncFeeds (feeds cfg) client).
  assert (Hnth : forall done feedConfig rest,
             feeds cfg = done ++ feedConfig :: rest ->
             nth_error (attempts b) (List.length done) =
             Some (feedConfig,
                   errorContext (contextOf feedConfig)
                     (outcome (syncFeed feedConfig (ledgerAfter done client))))).
  { intros done f rest Heq. unfold b. rewrite Heq, syncFeeds_app.
    cbn zeta. cbn [attempts].
    rewrite nth_error_app2
      by (rewrite <- (length_map fst), syncFeeds_attempts; lia).
    rewrite <- (length_map fst (attempts (syncFeeds done client))),
      syncFeeds_attempts, Nat.sub_diag.
    reflexivity. }
  assert (Herr : errors b <> [] <->
                 exists done feedConfig rest,
                   feeds cfg = done ++ feedConfig :: rest
                   /\ threw (outcome (syncFeed feedConfig
                                        (ledgerAfter done client))) = true).
  { unfold b at 1. rewrite syncFeeds_errors. fold b. split.
    - intros (f & r & Hin & Ht).
      apply In_nth_error in Hin as (n & Hn).
      assert (Hlen : (n < List.length (feeds cfg))%nat).
      { rewrite <- (syncFeeds_attempts (feeds cfg) client), length_map.
        apply nth_error_Some. fold b. congruence. }
      destruct (nth_error (feeds cfg) n) as [f'|] eqn:Hf;
        [|apply nth_error_None in Hf; lia].
      apply nth_error_split in Hf as (done & rest & Heq & Hdone).
      exists done, f', rest. split; [assumption|].
      pose proof (Hnth _ _ _ Heq) as Hk. rewrite Hdone, Hn in Hk.
      inversion Hk; subst r. now rewrite threw_errorContext in Ht.
    - intros (done & f & rest & Heq & Ht).
      exists f, (errorContext (contextOf f)
                   (outcome (syncFeed f (ledgerAfter done client)))).
      split; [|now rewrite threw_errorContext].
      eapply nth_error_In. exact (Hnth _ _ _ Heq). }
  destruct (errors b) as [|e0 es] eqn:He; cbn [List.length Nat.ltb Nat.leb fst snd].
  - repeat split; try apply syncFeeds_attempts; try assumption.
    + discriminate.
    + intros Hex. apply Herr in Hex. congruence.
    + now right.
  - repeat split; try apply syncFeeds_attempts; try assumption.
    + intros _. apply Herr. discriminate.
    + now left.
Qed.

Lemma syncCommand_attempts_every_feed_witness :
  let exit := fst (@syncCommand blogDown defaultOptions emptyLedger) in
  let batch := snd (@syncCommand blogDown defaultOptions emptyLedger) in
  map fst (attempts batch) = [blog; news] /\ exit = Exited 1.
Proof.
  destruct (@syncCommand_attempts_every_feed blogDown defaultOptions
              emptyLedger twoFeeds eq_refl) as (Hall & _ & Hexit & _).
  split; [exact Hall|].
  apply Hexit. exists [], blog, [news]. split; reflexivity.
Defined.

(* ================================================================= *)
(** * Further properties of the marker codec *)

Lemma firstGUID_before_empty_marker (b : bool) (t : jsstring) :
  firstGUID b (t ++ BLANK_LINE ++ marker []) = firstGUID b t.
Proof.
  revert b; induction t as [|c t IH]; intros b.
  - now destruct b.
  - change ((c :: t) ++ BLANK_LINE ++ marker [])
      with (c :: (t ++ BLANK_LINE ++ marker [])).
    cbn [firstGUID].
    change (c :: (t ++ BLANK_LINE ++ marker []))
      with ((c :: t) ++ BLANK_LINE ++ marker []).
    rewrite matchGUIDAt_before_marker by constructor.
    destruct (if b then matchGUIDAt (c :: t) else None); [reflexivity|].
    apply IH.
Qed.

Lemma normalizeGUID_guidChar (guid : option jsstring) :
  Forall (fun c => guidChar c = true) (normalizeGUID guid).
Proof.
  destruct guid as [[|c v]|]; try apply (stripQuoteGt_guidChar (c :: v)).
  all: apply Forall_guidChar; cbv; intuition discriminate.
Qed.

(** What [findGUID] decodes from a body that [addGUID] encoded, for every
    body and every identifier: the first marker of the body itself when it
    has one; else the normalized identifier; and null when the normalized
    identifier is empty. *)
Theorem findGUID_of_addGUID (markdown : jsstring) (guid : option jsstring) :
  findGUID (addGUID markdown guid) =
  match findGUID markdown, normalizeGUID guid with
  | Some g, _ => Some g
  | None, [] => None
  | None, id => Some id
  end.
Proof.
  destruct (normalizeGUID guid) as [|c id] eqn:Hn.
  - unfold addGUID. rewrite Hn, findGUID_firstGUID.
    rewrite firstGUID_before_empty_marker, <- findGUID_firstGUID.
    rewrite findGUID_trimEnd. now destruct (findGUID markdown).
  - rewrite findGUID_addGUID by (rewrite Hn; discriminate).
    now rewrite Hn.
Qed.

(** [normalizeGUID] never answers a string with a double quote or a [>];
    it answers the empty string exactly for a non-empty identifier made of
    those two characters alone. *)
Theorem normalizeGUID_range (guid : option jsstring) :
  (~ In QUOTE (normalizeGUID guid) /\ ~ In GT (normalizeGUID guid))
  /\ (normalizeGUID guid = [] <->
      exists c v, guid = Some (c :: v)
                  /\ Forall (fun x => x = QUOTE \/ x = GT) (c :: v)).
Proof.
  split.
  - apply Forall_guidChar, normalizeGUID_guidChar.
  - split.
    + destruct guid as [[|c v]|]; try discriminate.
      intros Hn. change (stripQuoteGt (c :: v) = []) in Hn.
      exists c, v. split; [reflexivity|].
      apply Forall_forall. intros x Hx.
      destruct (guidChar x) eqn:Hg.
      * assert (Hin : In x (stripQuoteGt (c :: v))).
        { apply filter_In. now split. }
        rewrite Hn in Hin. contradiction.
      * unfold guidChar in Hg.
        destruct (N.eqb_spec x QUOTE); [now left|].
        destruct (N.eqb_spec x GT); [now right | discriminate].
    + intros (c & v & -> & Hall). unfold normalizeGUID, stripQuoteGt.
      apply filter_nil. intros x Hx.
      rewrite Forall_forall in Hall. now destruct (Hall x Hx) as [->| ->].
Qed.

(** White space and line ends after the last marker change nothing:
    [findGUID] reads the same from a body and from its [trimEnd]. *)
Theorem findGUID_ignores_trailing_space (markdown : jsstring) :
  findGUID (trimEnd markdown) = findGUID markdown.
Proof. apply findGUID_trimEnd. Qed.

(* ================================================================= *)
(** * Further properties of the normalizer *)

(** [fromEntry] by cases: an entry with neither date is skipped, whatever
    its link; no other entry is; the item of an entry takes the publish
    date before the modified one, a timestamp that is not zero, the
    identifier of the entry as it is, and a body that ends in the marker. *)
Theorem fromEntry_cases `{Platform} (item : rss.FeedEntry) :
  (FeedItem.fromEntry item = Ok None <->
   rss.published item = None /\ rss.dc_modified item = None)
  /\ forall i,
      FeedItem.fromEntry item = Ok (Some i) ->
      exists date body,
        FeedItem.orElse (rss.published item) (rss.dc_modified item)
          = Some date
        /\ (forall d, rss.published item = Some d -> date = d)
        /\ FeedItem.published i = date
        /\ FeedItem.timestampMsUTC i = date
        /\ date <> Num 0
        /\ FeedItem.guid i = rss.id item
        /\ FeedItem.title i = getText (rss.title item)
        /\ FeedItem.markdown i = addGUID body (rss.id item).
Proof.
  unfold FeedItem.fromEntry.
  destruct (rss.published item) as [p|] eqn:Hp;
    [|destruct (rss.dc_modified item) as [m|] eqn:Hm]; cbn [FeedItem.orElse].
  3: { split; [tauto | discriminate]. }
  all: match goal with
       | |- context [bind ?r _] => destruct r as [body|e]
       end; cbn [bind]; unfold FeedItem.new;
    cbn [FeedItem.timestampMsUTC ItemData.published valueOf].
  all: try (split; [split; [discriminate | intros [? ?]; discriminate]
                   | discriminate]).
  all: match goal with
       | |- context [isZero ?d] => destruct (isZero d) eqn:Hz
       end; cbn [bind].
  all: try (split; [split; [discriminate | intros [? ?]; discriminate]
                   | discriminate]).
  all: split; [split; [discriminate | intros [? ?]; discriminate]|].
  all: intros i Hi; inversion Hi; subst i; cbn.
  - exists p, body. repeat split; try congruence.
    intros ->. discriminate.
  - exists m, body. repeat split; try congruence.
    intros ->. discriminate.
Qed.

Lemma fromEntry_cases_witness :
  exists date body,
    FeedItem.orElse (Some (Num 1700000200000)) None = Some date
    /\ (forall d, Some (Num 1700000200000) = Some d -> date = d)
    /\ FeedItem.published secondItem = date
    /\ FeedItem.timestampMsUTC secondItem = date
    /\ date <> Num 0
    /\ FeedItem.guid secondItem = Some (lit "urn:2")
    /\ FeedItem.title secondItem = None
    /\ FeedItem.markdown secondItem = addGUID body (Some (lit "urn:2")).
Proof.
  apply (proj2 (@fromEntry_cases (serving threeEntries acceptAll)
                  (entry (Some (lit "urn:2")) (Num 1700000200000)
                         (lit "second")))).
  reflexivity.
Defined.

(* ================================================================= *)
(** * Further properties of the reconciler *)

Lemma collectItems_from `{Platform} (entries : list rss.FeedEntry)
  (items : list FeedItem.t) :
  collectItems entries = Ok items ->
  (List.length items <= List.length entries)%nat
  /\ forall i, In i items ->
       exists e, In e entries /\ FeedItem.fromEntry e = Ok (Some i).
Proof.
  revert items; induction entries as [|e entries IH]; intros items; simpl.
  - intros Heq; inversion Heq; subst. split; [simpl; lia | intros i []].
  - destruct (FeedItem.fromEntry e) as [o|x] eqn:He; [|discriminate].
    cbn [bind]. destruct (collectItems entries) as [l|x]; [|discriminate].
    cbn [bind]. destruct (IH l eq_refl) as [Hlen Hin].
    intros Heq; inversion Heq; subst. destruct o as [i0|]; simpl.
    + split; [lia|]. intros i [<-|Hi]; [now exists e; auto|].
      destruct (Hin i Hi) as (e' & He' & Hf). exists e'; auto.
    + split; [lia|]. intros i Hi.
      destruct (Hin i Hi) as (e' & He' & Hf). exists e'; auto.
Qed.

Lemma collectItems_throws `{Platform} (entries : list rss.FeedEntry)
  (e : rss.FeedEntry) (x : Exn) :
  In e entries -> FeedItem.fromEntry e = Throw x ->
  exists x', collectItems entries = Throw x'.
Proof.
  induction entries as [|e0 entries IH]; intros Hin Hx; [destruct Hin|].
  destruct Hin as [<-|Hin]; simpl.
  - rewrite Hx. now exists x.
  - destruct (FeedItem.fromEntry e0) as [o|x0]; [|now exists x0].
    cbn [bind]. destruct (IH Hin Hx) as (x' & ->). now exists x'.
Qed.

Lemma filter_length_le {A} (f : A -> bool) (l : list A) :
  (List.length (filter f l) <= List.length l)%nat.
Proof.
  induction l as [|x l IH]; simpl; [lia|]. destruct (f x); simpl; lia.
Qed.

(** One run publishes only items normalized from the first 200 entries of
    the feed, and so at most 200 of them. *)
Theorem syncFeed_keeps_to_cap `{Platform} (feedConfig : Feed)
  (client : diskuto.Client) (feed : rss.Feed) :
  readRSS (rssUrl feedConfig) = Ok feed ->
  (List.length (stored (syncFeed feedConfig client)) <= 200)%nat
  /\ forall i, In i (stored (syncFeed feedConfig client)) ->
       exists e, In e (firstn 200 (rss.entries feed))
                 /\ FeedItem.fromEntry e = Ok (Some i).
Proof.
  intros Hr.
  destruct (pending feedConfig) as [items|x] eqn:Hp.
  2: { rewrite (syncFeed_failed _ _ Hp). simpl. split; [lia | intros i []]. }
  assert (Hc : collectItems (firstn MAX_FEED_ITEMS (rss.entries feed))
               = Ok items).
  { unfold pending in Hp. now rewrite Hr in Hp. }
  apply collectItems_from in Hc as [Hlen Hfrom].
  assert (Hsub : forall i, In i (stored (syncFeed feedConfig client)) ->
                           In i items).
  { intros i Hi. apply (@stored_unseen _ _ _ _ _ Hp) in Hi.
    rewrite unseen_filter in Hi. apply filter_In in Hi as [Hi _].
    now apply (sort_In FeedItem.sortByDate). }
  split; [|intros i Hi; now apply Hfrom, Hsub].
  rewrite (syncFeed_pending _ _ Hp).
  destruct (storeItems_spec (userId feedConfig)
              (unseen client (userId feedConfig)
                 (sort FeedItem.sortByDate items)) client)
    as ((rest & Hrest) & _).
  apply (f_equal (@List.length _)) in Hrest. rewrite length_app in Hrest.
  rewrite unseen_filter in Hrest at 1.
  pose proof (filter_length_le
                (fun i => negb (StringSet.has
                   (getSeenGUIDs client (userId feedConfig)
                      (oldestPending items))
                   (FeedItem.guid i)))
                (sort FeedItem.sortByDate items)) as Hf.
  pose proof (Permutation_length
                (sort_Permutation FeedItem.sortByDate items)) as Hs.
  rewrite length_firstn in Hlen. unfold MAX_FEED_ITEMS in Hlen. lia.
Qed.

Lemma syncFeed_keeps_to_cap_witness :
  (List.length (stored (@syncFeed (serving threeEntries acceptAll)
                          blog emptyLedger)) <= 200)%nat.
Proof.
  apply (@syncFeed_keeps_to_cap (serving threeEntries acceptAll)
           blog emptyLedger threeEntries eq_refl).
Defined.

(** A run that fails before it publishes leaves everything as it was: a
    feed that cannot be fetched, or one entry among the first 200 whose
    normalization throws (a date at the epoch, a link that is no valid
    pattern), ends the run with an exception, with nothing stored and the
    ledger unchanged; the entries with good dates of that feed are not
    published either. *)
Theorem syncFeed_fails_whole `{Platform} (feedConfig : Feed)
  (client : diskuto.Client) :
  (forall x, readRSS (rssUrl feedConfig) = Throw x ->
             syncFeed feedConfig client = quiet client (Throw x))
  /\ forall feed e x,
      readRSS (rssUrl feedConfig) = Ok feed ->
      In e (firstn MAX_FEED_ITEMS (rss.entries feed)) ->
      FeedItem.fromEntry e = Throw x ->
      exists x', syncFeed feedConfig client = quiet client (Throw x').
Proof.
  split.
  - intros x Hr. apply syncFeed_failed. unfold pending. now rewrite Hr.
  - intros feed e x Hr Hin Hx.
    destruct (@collectItems_throws _ _ _ _ Hin Hx) as (x' & Hc).
    exists x'. apply syncFeed_failed. unfold pending. now rewrite Hr.
Qed.

Lemma syncFeed_fails_whole_witness :
  exists x', @syncFeed (serving epochMiddleFeed acceptAll) blog emptyLedger
             = quiet emptyLedger (Throw x').
Proof.
  apply (proj2 (@syncFeed_fails_whole (serving epochMiddleFeed acceptAll)
                  blog emptyLedger)
           epochMiddleFeed
           (entry (Some (lit "urn:0")) (Num 0) (lit "zero")) EpochDate).
  - reflexivity.
  - right; left; reflexivity.
  - reflexivity.
Defined.

Lemma sameUser_spec (a b : diskuto.UserID) :
  diskuto.sameUser a b = true <-> a = b.
Proof.
  unfold diskuto.sameUser.
  destruct (list_eq_dec N.eq_dec a b); split; auto; discriminate.
Qed.

Lemma insertNewestFirst_Permutation (e : diskuto.ItemListEntry)
  (l : list diskuto.ItemListEntry) :
  Permutation (diskuto.insertNewestFirst e l) (e :: l).
Proof.
  induction l as [|x l IH]; simpl; [reflexivity|].
  destruct (diskuto.entryTimestampMsUtc e <? diskuto.entryTimestampMsUtc x)%Z;
    [|reflexivity].
  rewrite IH. apply perm_swap.
Qed.

(** The ledger after the publishing loop: the other identities as they
    were, and for the identity one record more for each stored item. *)
Lemma storeItems_ledger `{Platform} (userID : diskuto.UserID)
  (items : list FeedItem.t) (client : diskuto.Client) :
  let r := storeItems userID items client in
  (forall u, u <> userID -> ledger r u = client u)
  /\ exists records,
      Forall2 (fun i item => FeedItem.toProtobuf i = Ok item)
              (stored r) records
      /\ Permutation (ledger r userID)
                     (map diskuto.entryOf records ++ client userID).
Proof.
  revert client; induction items as [|i items IH]; intros client; cbn zeta.
  - simpl. split; [reflexivity|]. exists []; split; [constructor|reflexivity].
  - cbn [storeItems].
    destruct (FeedItem.toProtobuf i) as [bytes|e] eqn:Hp.
    2: { simpl. split; [reflexivity|].
         exists []; split; [constructor|reflexivity]. }
    unfold putItem. destruct (putRefused userID bytes).
    { simpl. split; [reflexivity|].
      exists []; split; [constructor|reflexivity]. }
    specialize (IH (diskuto.store client userID bytes)).
    cbn zeta in IH. destruct IH as (Hframe & records & Hrec & Hperm).
    cbn [ledger stored]. split.
    + intros u Hu. rewrite (Hframe u Hu). unfold diskuto.store.
      destruct (diskuto.sameUser u userID) eqn:Hs; [|reflexivity].
      apply sameUser_spec in Hs. contradiction.
    + exists (bytes :: records). split; [now constructor|].
      rewrite Hperm. unfold diskuto.store at 1. rewrite sameUser_refl.
      rewrite insertNewestFirst_Permutation. cbn [map app].
      symmetry. apply Permutation_middle.
Qed.

(** What a run does to the ledger: it touches the item list of no other
    identity, and the list of its own identity afterwards holds what it
    held before and, for each stored item, one record with the encoding of
    that item; nothing is removed or replaced. *)
Theorem syncFeed_appends_only `{Platform} (feedConfig : Feed)
  (client : diskuto.Client) :
  let r := syncFeed feedConfig client in
  (forall u, u <> userId feedConfig -> ledger r u = client u)
  /\ exists records,
      Forall2 (fun i item => FeedItem.toProtobuf i = Ok item)
              (stored r) records
      /\ Permutation (ledger r (userId feedConfig))
           (map diskuto.entryOf records ++ client (userId feedConfig)).
Proof.
  cbn zeta. destruct (pending feedConfig) as [items|x] eqn:Hp.
  - rewrite (syncFeed_pending _ _ Hp). apply storeItems_ledger.
  - rewrite (syncFeed_failed _ _ Hp). simpl. split; [reflexivity|].
    exists []; split; [constructor|reflexivity].
Qed.

(** Where the publishing loop stops. *)
Lemma storeItems_stops `{Platform} (userID : diskuto.UserID)
  (items : list FeedItem.t) (client : diskuto.Client) :
  let r := storeItems userID items client in
  exists rest,
    items = stored r ++ rest
    /\ (outcome r = Ok tt <-> rest = [])
    /\ forall x rest', rest = x :: rest' ->
         (FeedItem.toProtobuf x = Throw RangeError
          /\ outcome r = Throw RangeError)
         \/ (exists item, FeedItem.toProtobuf x = Ok item
                          /\ putRefused userID item = true
                          /\ outcome r = Throw PutRejected).
Proof.
  revert client; induction items as [|i items IH]; intros client; cbn zeta.
  - exists []. simpl. repeat split; auto. discriminate.
  - cbn [storeItems].
    destruct (FeedItem.toProtobuf i) as [bytes|e] eqn:Hp.
    2: { exists (i :: items). simpl. repeat split; try discriminate.
         intros x rest' [= <- <-]. left.
         unfold FeedItem.toProtobuf in *.
         destruct (FeedItem.timestampMsUTC i); [|discriminate].
         now inversion Hp. }
    unfold putItem. destruct (putRefused userID bytes) eqn:Hput.
    { exists (i :: items). simpl. repeat split; try discriminate.
      intros x rest' [= <- <-]. right. now exists bytes. }
    destruct (IH (diskuto.store client userID bytes))
      as (rest & Hrest & Hok & Hfail).
    exists rest. cbn [outcome stored]. repeat split.
    + simpl. now f_equal.
    + apply Hok.
    + apply Hok.
    + exact Hfail.
Qed.

(** A run that stops half way: the stored items are the first of the
    unseen items in their order, the run ends well exactly when none is
    left, and the first item left is the one that failed, by an invalid
    date or by the ledger's refusal; the items behind it were not
    tried. *)
Theorem syncFeed_stops_at_failure `{Platform} (feedConfig : Feed)
  (client : diskuto.Client) (items : list FeedItem.t) :
  pending feedConfig = Ok items ->
  let r := syncFeed feedConfig client in
  exists rest,
    unseen client (userId feedConfig) (sort FeedItem.sortByDate items)
      = stored r ++ rest
    /\ (outcome r = Ok tt <-> rest = [])
    /\ forall x rest', rest = x :: rest' ->
         (FeedItem.toProtobuf x = Throw RangeError
          /\ outcome r = Throw RangeError)
         \/ (exists item, FeedItem.toProtobuf x = Ok item
                          /\ putRefused (userId feedConfig) item = true
                          /\ outcome r = Throw PutRejected).
Proof.
  intros Hp. cbn zeta. rewrite (syncFeed_pending _ _ Hp).
  apply storeItems_stops.
Qed.

Lemma syncFeed_stops_at_failure_witness :
  exists rest,
    unseen emptyLedger (userId blog)
      (sort FeedItem.sortByDate
         (match @pending (serving twinFeed refuseSecond) blog with
          | Ok l => l
          | Throw _ => []
          end))
    = stored (@syncFeed (serving twinFeed refuseSecond) blog emptyLedger)
      ++ rest
    /\ List.length rest = 2%nat.
Proof.
  destruct (@syncFeed_stops_at_failure (serving twinFeed refuseSecond)
              blog emptyLedger _ eq_refl) as (rest & Heq & _).
  exists rest. split; [exact Heq|].
  apply (f_equal (@List.length _)) in Heq. rewrite length_app in Heq.
  vm_compute in Heq. now inversion Heq.
Defined.

(** An item of invalid date passes the constructor but cannot be
    published: a run in which such an item is left by the filter ends with
    an exception. *)
Theorem syncFeed_invalid_date_fails `{Platform} (feedConfig : Feed)
  (client : diskuto.Client) (items : list FeedItem.t) (i : FeedItem.t) :
  pending feedConfig = Ok items ->
  In i (unseen client (userId feedConfig) (sort FeedItem.sortByDate items)) ->
  FeedItem.timestampMsUTC i = NaN ->
  exists x, outcome (syncFeed feedConfig client) = Throw x.
Proof.
  intros Hp Hi Hnan.
  destruct (outcome (syncFeed feedConfig client)) as [[]|x] eqn:Ho;
    [|now exists x].
  exfalso. rewrite (syncFeed_pending _ _ Hp) in Ho.
  destruct (storeItems_spec (userId feedConfig)
              (unseen client (userId feedConfig)
                 (sort FeedItem.sortByDate items)) client)
    as (_ & Hall & _ & _ & Hin).
  rewrite <- (Hall Ho) in Hi. apply Hin in Hi as (item & Hitem & _).
  apply toProtobuf_ok in Hitem as (_ & Hv & _).
  rewrite Hnan in Hv. discriminate.
Qed.

Lemma syncFeed_invalid_date_fails_witness :
  exists x, outcome (@syncFeed (serving invalidDateFeed acceptAll)
                       blog emptyLedger) = Throw x.
Proof.
  eapply (@syncFeed_invalid_date_fails (serving invalidDateFeed acceptAll)
            blog emptyLedger _ invalidItem eq_refl).
  - vm_compute. tauto.
  - reflexivity.
Defined.

Lemma syncFeed_appends_only_witness :
  ledger (@syncFeed (serving threeEntries acceptAll) blog emptyLedger)
         (userId news)
  = emptyLedger (userId news).
Proof.
  apply (proj1 (@syncFeed_appends_only (serving threeEntries acceptAll)
                  blog emptyLedger)).
  discriminate.
Defined.

(** Resuming is safe: with valid dates, bodies that decode to their own
    identifiers and a ledger that streams newest first, no item that one
    run stored, whether that run ended well or was cut short, is stored by
    the next run on the same feed. *)
Theorem syncFeed_resumes_without_repeat `{Platform} (feedConfig : Feed)
  (client : diskuto.Client) (items : list FeedItem.t) :
  pending feedConfig = Ok items ->
  validDates items ->
  Forall decodesToItself items ->
  newestFirst (diskuto.getUserItems client (userId feedConfig)) ->
  Forall (fun i => ~ In i (stored (secondRun feedConfig client)))
         (stored (syncFeed feedConfig client)).
Proof.
  intros Hp Hv Hd Hs. apply Forall_forall. intros i Hi1 Hi2.
  unfold secondRun in Hi2.
  apply (@stored_unseen _ _ _ _ _ Hp) in Hi2.
  pose proof (@stored_unseen _ _ _ _ _ Hp Hi1) as Hu1.
  rewrite (syncFeed_pending _ _ Hp) in *.
  set (uid := userId feedConfig) in *.
  set (S := sort FeedItem.sortByDate items) in *.
  destruct (storeItems_spec uid (unseen client uid S) client)
    as (_ & _ & _ & Hsort & Hin).
  set (r1 := storeItems uid (unseen client uid S) client) in *.
  specialize (Hsort Hs).
  assert (Hi : In i items).
  { unfold S in Hu1. rewrite unseen_filter in Hu1.
    apply filter_In in Hu1 as [Hu1 _].
    exact (proj1 (sort_In FeedItem.sortByDate i items) Hu1). }
  rewrite Forall_forall in Hd. destruct (Hd i Hi) as [Hself Hsome].
  destruct (FeedItem.guid i) as [g|] eqn:Hg; [|congruence].
  apply Hin in Hi1 as (item & Hitem & Hon).
  unfold S in Hi2. rewrite unseen_filter in Hi2.
  apply filter_In in Hi2 as [_ Hi2]. rewrite Hg in Hi2.
  apply negb_true_iff in Hi2.
  assert (Hseen : In g (getSeenGUIDs (ledger r1) uid (oldestPending items))).
  { apply getSeenGUIDs_newestFirst; [exact Hsort|].
    exists (diskuto.entryOf item). split; [exact Hon|].
    eapply stored_entry_seen; eauto. }
  apply StringSet_has_In in Hseen. congruence.
Qed.

Lemma syncFeed_resumes_without_repeat_witness :
  Forall (fun i => ~ In i (stored (@secondRun (serving twinFeed refuseSecond)
                                      blog emptyLedger)))
         (stored (@syncFeed (serving twinFeed refuseSecond) blog emptyLedger)).
Proof.
  eapply (@syncFeed_resumes_without_repeat (serving twinFeed refuseSecond)
            blog emptyLedger).
  - reflexivity.
  - repeat constructor.
  - repeat constructor; discriminate.
  - constructor.
Defined.

Lemma filter_all {A} (f : A -> bool) (l : list A) :
  (forall x, In x l -> f x = true) -> filter f l = l.
Proof.
  induction l as [|x l IH]; intros Hall; simpl; [reflexivity|].
  rewrite (Hall x) by now left. f_equal. apply IH.
  intros y Hy; apply Hall; now right.
Qed.

Lemma storeItems_all `{Platform} (userID : diskuto.UserID)
  (items : list FeedItem.t) (client : diskuto.Client) :
  validDates items ->
  (forall item, putRefused userID item = false) ->
  outcome (storeItems userID items client) = Ok tt.
Proof.
  intros Hv Hacc. revert client.
  induction Hv as [|i items Hi _ IH]; intros client; [reflexivity|].
  cbn [storeItems]. unfold FeedItem.toProtobuf.
  destruct (FeedItem.timestampMsUTC i); [discriminate|].
  unfold putItem. rewrite Hacc. cbn [outcome]. apply IH.
Qed.

(** The fresh feed: on an identity without records, with valid dates and
    no write refused, the run ends well and stores every normalized item
    once, in ascending order of the dates. *)
Theorem syncFeed_fresh_feed `{Platform} (feedConfig : Feed)
  (client : diskuto.Client) (items : list FeedItem.t) :
  pending feedConfig = Ok items ->
  validDates items ->
  diskuto.getUserItems client (userId feedConfig) = [] ->
  (forall item, putRefused (userId feedConfig) item = false) ->
  let r := syncFeed feedConfig client in
  outcome r = Ok tt
  /\ stored r = sort FeedItem.sortByDate items
  /\ Permutation (stored r) items
  /\ StronglySorted byDate (stored r).
Proof.
  intros Hp Hv Hempty Hacc. cbn zeta. rewrite (syncFeed_pending _ _ Hp).
  assert (Hun : unseen client (userId feedConfig)
                  (sort FeedItem.sortByDate items)
                = sort FeedItem.sortByDate items).
  { rewrite unseen_filter. apply filter_all. intros i _.
    unfold getSeenGUIDs. rewrite Hempty. simpl.
    now destruct (FeedItem.guid i). }
  rewrite Hun.
  assert (Hok : outcome (storeItems (userId feedConfig)
                           (sort FeedItem.sortByDate items) client) = Ok tt).
  { apply storeItems_all; [now apply sort_validDates | assumption]. }
  destruct (storeItems_spec (userId feedConfig)
              (sort FeedItem.sortByDate items) client) as (_ & Hall & _).
  rewrite (Hall Hok). repeat split; auto.
  - apply sort_Permutation.
  - now apply sort_byDate.
Qed.

Lemma syncFeed_fresh_feed_witness :
  outcome (@syncFeed (serving threeEntries acceptAll) blog emptyLedger) = Ok tt
  /\ List.length (stored (@syncFeed (serving threeEntries acceptAll)
                            blog emptyLedger)) = 3%nat.
Proof.
  destruct (@syncFeed_fresh_feed (serving threeEntries acceptAll)
              blog emptyLedger _ eq_refl) as (Hok & Hst & _).
  - repeat constructor.
  - reflexivity.
  - reflexivity.
  - split; [exact Hok|]. rewrite Hst. reflexivity.
Defined.

Lemma collectItems_In `{Platform} (entries : list rss.FeedEntry)
  (items : list FeedItem.t) (e : rss.FeedEntry) (i : FeedItem.t) :
  collectItems entries = Ok items ->
  In e entries -> FeedItem.fromEntry e = Ok (Some i) -> In i items.
Proof.
  revert items; induction entries as [|e0 entries IH]; intros items Hc Hin Hf;
    [destruct Hin|].
  simpl in Hc.
  destruct (FeedItem.fromEntry e0) as [o|x] eqn:He; [|discriminate].
  cbn [bind] in Hc.
  destruct (collectItems entries) as [l|x]; [|discriminate].
  cbn [bind] in Hc. inversion Hc; subst items.
  destruct Hin as [<-|Hin].
  - rewrite Hf in He. inversion He; subst o. now left.
  - specialize (IH l eq_refl Hin Hf). destruct o; [now right | assumption].
Qed.

(** An entry without identifier is never deduplicated: whatever the
    ledger holds, its item passes the filter, and a run that ends well has
    stored it, every time. *)
Theorem syncFeed_never_filters_anonymous `{Platform} (feedConfig : Feed)
  (client : diskuto.Client) (feed : rss.Feed) (e : rss.FeedEntry)
  (i : FeedItem.t) :
  readRSS (rssUrl feedConfig) = Ok feed ->
  In e (firstn MAX_FEED_ITEMS (rss.entries feed)) ->
  rss.id e = None ->
  FeedItem.fromEntry e = Ok (Some i) ->
  outcome (syncFeed feedConfig client) = Ok tt ->
  In i (stored (syncFeed feedConfig client)).
Proof.
  intros Hr Hin Hid Hf Hok.
  destruct (pending feedConfig) as [items|x] eqn:Hp.
  2: { rewrite (syncFeed_failed _ _ Hp) in Hok. discriminate. }
  assert (Hc : collectItems (firstn MAX_FEED_ITEMS (rss.entries feed))
               = Ok items).
  { unfold pending in Hp. now rewrite Hr in Hp. }
  pose proof (@collectItems_In _ _ _ _ _ Hc Hin Hf) as Hi.
  rewrite (syncFeed_pending _ _ Hp) in *.
  destruct (storeItems_spec (userId feedConfig)
              (unseen client (userId feedConfig)
                 (sort FeedItem.sortByDate items)) client)
    as (_ & Hall & _).
  rewrite (Hall Hok), unseen_filter. apply filter_In. split.
  - now apply sort_In.
  - destruct (@fromEntry_shape _ _ _ Hf) as [Hg _].
    now rewrite Hg, Hid.
Qed.

Lemma syncFeed_never_filters_anonymous_witness :
  In anonymousItem
     (stored (@syncFeed (serving anonymousEntry acceptAll) blog
                (ledger (@syncFeed (serving anonymousEntry acceptAll)
                           blog emptyLedger)))).
Proof.
  eapply (@syncFeed_never_filters_anonymous (serving anonymousEntry acceptAll)
            blog _ anonymousEntry
            (entry None (Num 1700000100000) (lit "no id"))).
  - reflexivity.
  - left; reflexivity.
  - reflexivity.
  - reflexivity.
  - reflexivity.
Defined.

(** The scan ends at the first entry that is too old: whatever the stream
    holds behind that entry has no part in the result. *)
Theorem getSeenGUIDs_stops_early (client1 client2 : diskuto.Client)
  (userID : diskuto.UserID) (oldestTimestamp : number)
  (scanned rest1 rest2 : list diskuto.ItemListEntry)
  (e : diskuto.ItemListEntry) :
  tooOld oldestTimestamp e ->
  diskuto.getUserItems client1 userID = scanned ++ e :: rest1 ->
  diskuto.getUserItems client2 userID = scanned ++ e :: rest2 ->
  getSeenGUIDs client1 userID oldestTimestamp
  = getSeenGUIDs client2 userID oldestTimestamp.
Proof.
  intros Hold H1 H2. unfold getSeenGUIDs. rewrite H1, H2. clear H1 H2.
  apply bigint_lt_number_tooOld in Hold.
  generalize StringSet.empty.
  induction scanned as [|x scanned IH]; intros guids; cbn [app scanEntries].
  - now rewrite Hold.
  - destruct (bigint_lt_number (diskuto.entryTimestampMsUtc x)
                (sub oldestTimestamp (Num ONE_WEEK_MS))); [reflexivity|].
    destruct (diskuto.getItem x) as [[ms [t b|d a|t]]|]; try apply IH.
    destruct (truthy (findGUID b)); apply IH.
Qed.

Lemma getSeenGUIDs_stops_early_witness :
  getSeenGUIDs
    (ledgerOf [postedAt 1700000200000 (lit "urn:2");
               postedAt 1000 (lit "urn:old");
               postedAt 900 (lit "urn:older")])
    (userId blog) (Num 1700000100000)
  = getSeenGUIDs
      (ledgerOf [postedAt 1700000200000 (lit "urn:2");
                 postedAt 1000 (lit "urn:old")])
      (userId blog) (Num 1700000100000).
Proof.
  apply (@getSeenGUIDs_stops_early _ _ (userId blog) (Num 1700000100000)
           [postedAt 1700000200000 (lit "urn:2")]
           [postedAt 900 (lit "urn:older")] []
           (postedAt 1000 (lit "urn:old"))).
  - vm_compute. reflexivity.
  - reflexivity.
  - reflexivity.
Defined.

(* ================================================================= *)
(** * Feeds of one batch do not touch each other *)

Lemma storeItems_local `{Platform} (userID : diskuto.UserID)
  (items : list FeedItem.t) (c1 c2 : diskuto.Client) :
  c1 userID = c2 userID ->
  outcome (storeItems userID items c1) = outcome (storeItems userID items c2)
  /\ stored (storeItems userID items c1) = stored (storeItems userID items c2)
  /\ ledger (storeItems userID items c1) userID
     = ledger (storeItems userID items c2) userID.
Proof.
  revert c1 c2; induction items as [|i items IH]; intros c1 c2 Heq.
  - simpl. auto.
  - cbn [storeItems]. destruct (FeedItem.toProtobuf i) as [bytes|e];
      [|simpl; auto].
    unfold putItem. destruct (putRefused userID bytes); [simpl; auto|].
    destruct (IH (diskuto.store c1 userID bytes)
                 (diskuto.store c2 userID bytes)) as (Ho & Hs & Hl).
    { unfold diskuto.store. now rewrite sameUser_refl, Heq. }
    cbn [outcome stored ledger]. now rewrite Ho, Hs, Hl.
Qed.

Lemma syncFeed_local `{Platform} (feedConfig : Feed)
  (c1 c2 : diskuto.Client) :
  c1 (userId feedConfig) = c2 (userId feedConfig) ->
  outcome (syncFeed feedConfig c1) = outcome (syncFeed feedConfig c2)
  /\ stored (syncFeed feedConfig c1) = stored (syncFeed feedConfig c2)
  /\ ledger (syncFeed feedConfig c1) (userId feedConfig)
     = ledger (syncFeed feedConfig c2) (userId feedConfig).
Proof.
  intros Heq. destruct (pending feedConfig) as [items|x] eqn:Hp.
  - rewrite !(syncFeed_pending _ _ Hp).
    assert (Hun : unseen c1 (userId feedConfig)
                    (sort FeedItem.sortByDate items)
                  = unseen c2 (userId feedConfig)
                      (sort FeedItem.sortByDate items)).
    { rewrite !unseen_filter. unfold getSeenGUIDs, diskuto.getUserItems.
      now rewrite Heq. }
    rewrite Hun. now apply storeItems_local.
  - rewrite !(syncFeed_failed _ _ Hp). simpl. auto.
Qed.

Lemma syncFeed_frame `{Platform} (feedConfig : Feed)
  (client : diskuto.Client) (u : diskuto.UserID) :
  u <> userId feedConfig -> ledger (syncFeed feedConfig client) u = client u.
Proof.
  intros Hu. destruct (pending feedConfig) as [items|x] eqn:Hp.
  - rewrite (syncFeed_pending _ _ Hp).
    now apply (proj1 (storeItems_ledger (userId feedConfig) _ client)).
  - now rewrite (syncFeed_failed _ _ Hp).
Qed.

Lemma syncFeeds_frame `{Platform} (l : list Feed) (client : diskuto.Client)
  (u : diskuto.UserID) :
  ~ In u (map userId l) -> server (syncFeeds l client) u = client u.
Proof.
  revert client; induction l as [|f l IH]; intros client Hu; [reflexivity|].
  cbn [syncFeeds server]. rewrite IH.
  - apply syncFeed_frame. intros ->. apply Hu. now left.
  - intros Hin. apply Hu. now right.
Qed.

(** Feeds under distinct identities keep their sync state apart: in a
    batch, each feed ends as it would if it were synced alone on the ledger
    the batch started from, stores the same items, and leaves on the
    ledger of its identity, at the end of the batch, what it alone would
    leave. *)
Theorem syncFeeds_independent `{Platform} (fs done rest : list Feed)
  (feedConfig : Feed) (client : diskuto.Client) :
  NoDup (map userId fs) ->
  fs = done ++ feedConfig :: rest ->
  let alone := syncFeed feedConfig client in
  let inBatch := syncFeed feedConfig (ledgerAfter done client) in
  outcome inBatch = outcome alone
  /\ stored inBatch = stored alone
  /\ server (syncFeeds fs client) (userId feedConfig)
     = ledger alone (userId feedConfig).
Proof.
  intros Hnd -> . cbn zeta. rewrite map_app in Hnd. cbn [map] in Hnd.
  assert (Hdone : ~ In (userId feedConfig) (map userId done)).
  { intros Hin. apply NoDup_remove_2 in Hnd. apply Hnd.
    apply in_or_app. now left. }
  assert (Hrest : ~ In (userId feedConfig) (map userId rest)).
  { intros Hin. apply NoDup_remove_2 in Hnd. apply Hnd.
    apply in_or_app. now right. }
  assert (Heq : ledgerAfter done client (userId feedConfig)
                = client (userId feedConfig)).
  { unfold ledgerAfter. now apply syncFeeds_frame. }
  destruct (syncFeed_local feedConfig _ _ Heq) as (Ho & Hs & Hl).
  repeat split; [exact Ho | exact Hs |].
  rewrite syncFeeds_app. cbn zeta. cbn [server syncFeeds].
  rewrite syncFeeds_frame by exact Hrest. exact Hl.
Qed.

Lemma syncFeeds_independent_witness :
  stored (@syncFeed blogDown news (@ledgerAfter blogDown [blog] emptyLedger))
  = stored (@syncFeed blogDown news emptyLedger).
Proof.
  apply (@syncFeeds_independent blogDown [blog; news] [blog] [] news
           emptyLedger).
  - repeat constructor; simpl; intuition discriminate.
  - reflexivity.
Defined.

(* ================================================================= *)
(** * The profile synchronizer: proofs *)

Lemma sameString_refl (s : jsstring) : sameString s s = true.
Proof. unfold sameString. now destruct (list_eq_dec N.eq_dec s s). Qed.

Lemma insertNewestFirst_newest (e : diskuto.ItemListEntry)
  (l : list diskuto.ItemListEntry) :
  Forall (fun x => (diskuto.entryTimestampMsUtc x
                    <= diskuto.entryTimestampMsUtc e)%Z) l ->
  diskuto.insertNewestFirst e l = e :: l.
Proof.
  intros Hall. destruct l as [|x l]; [reflexivity|]. simpl.
  inversion Hall as [|? ? Hx _]; subst.
  destruct (Z.ltb_spec (diskuto.entryTimestampMsUtc e)
                       (diskuto.entryTimestampMsUtc x)); [lia|reflexivity].
Qed.

(** Once [updateProfile] has ended well, on a ledger none of whose records
    of the identity is dated after the clock, the profile stands: every
    later call, at any time, writes nothing and leaves the ledger as it
    is. *)
Theorem updateProfile_settles `{Platform} (now : Z) (feedConfig : Feed)
  (client : diskuto.Client) :
  Forall (fun e => (diskuto.entryTimestampMsUtc e <= now)%Z)
         (diskuto.getUserItems client (userId feedConfig)) ->
  profileOutcome (updateProfile now feedConfig client) = Ok tt ->
  forall later,
    updateProfile later feedConfig
      (profileLedger (updateProfile now feedConfig client))
    = {| profileOutcome := Ok tt;
         profileLedger := profileLedger (updateProfile now feedConfig client);
         profilesPut := [] |}.
Proof.
  intros Hall Hok later. unfold updateProfile in *.
  destruct (match getProfile (diskuto.getUserItems client (userId feedConfig))
            with
            | Some (currentName, currentAbout) =>
                sameString currentName (name feedConfig)
                && sameString currentAbout (profileText feedConfig)
            | None => false
            end) eqn:Hun.
  - cbn [profileLedger]. now rewrite Hun.
  - unfold putItem in *.
    destruct (putRefused (userId feedConfig) _);
      cbn [profileOutcome] in Hok; [discriminate Hok|].
    cbn [profileLedger]. unfold diskuto.getUserItems, diskuto.store at 1.
    rewrite sameUser_refl, insertNewestFirst_newest by exact Hall.
    cbn [getProfile diskuto.entryOf diskuto.getItem diskuto.itemType].
    now rewrite !sameString_refl.
Qed.

Lemma updateProfile_settles_witness :
  profilesPut
    (@updateProfile (serving threeEntries acceptAll) 1800000000000 blog
       (profileLedger
          (@updateProfile (serving threeEntries acceptAll) 1700000900000 blog
             ledgerWithSecond)))
  = [].
Proof.
  rewrite (@updateProfile_settles (serving threeEntries acceptAll)
             1700000900000 blog ledgerWithSecond).
  - reflexivity.
  - repeat constructor. vm_compute. discriminate.
  - reflexivity.
Defined.

Lemma updateProfile_failed `{Platform} (now : Z) (feedConfig : Feed)
  (client : diskuto.Client) (x : Exn) :
  profileOutcome (updateProfile now feedConfig client) = Throw x ->
  profileLedger (updateProfile now feedConfig client) = client.
Proof.
  unfold updateProfile.
  destruct (match getProfile _ with Some _ => _ | None => _ end);
    [discriminate|].
  destruct (putItem client (userId feedConfig) _); [discriminate|reflexivity].
Qed.

Lemma updateProfiles_app `{Platform} (clock : nat -> Z) (n : nat)
  (done l : list Feed) (client : diskuto.Client) :
  failure (updateProfiles clock n done client) = None ->
  visited (updateProfiles clock n done client) = done
  /\ updateProfiles clock n (done ++ l) client =
     let b := updateProfiles clock (n + List.length done) l
                (profileServer (updateProfiles clock n done client)) in
     {| visited := done ++ visited b;
        failure := failure b;
        profileServer := profileServer b |}.
Proof.
  revert n client; induction done as [|f done IH]; intros n client Hnone.
  - simpl. rewrite Nat.add_0_r. split; [reflexivity|].
    now destruct (updateProfiles clock n l client).
  - cbn [updateProfiles app] in *.
    destruct (errorContext (profileContextOf f)
                (profileOutcome (updateProfile (clock n) f client)))
      as [[]|e]; [|discriminate].
    cbn [failure visited profileServer] in *.
    destruct (IH (S n) _ Hnone) as [Hv ->]. cbn zeta.
    cbn [failure visited profileServer List.length].
    rewrite Hv. replace (n + S (List.length done))%nat
      with (S n + List.length done)%nat by lia.
    split; reflexivity.
Qed.

(** [updateProfilesCommand] catches nothing: when the update of one feed
    throws, the command ends there with that exception; the feeds behind
    it in the configuration are not visited, and the failed update has
    written nothing. *)
Theorem updateProfilesCommand_stops_at_failure `{Platform}
  (clock : nat -> Z) (options : MainOptions) (client : diskuto.Client)
  (cfg : Config) (done rest : list Feed) (feedConfig : Feed) (x : Exn) :
  loadConfig (config options) = Ok cfg ->
  feeds cfg = done ++ feedConfig :: rest ->
  failure (updateProfiles clock 0 done client) = None ->
  profileOutcome
    (updateProfile (clock (List.length done)) feedConfig
       (profileServer (updateProfiles clock 0 done client))) = Throw x ->
  let exit := fst (updateProfilesCommand clock options client) in
  let batch := snd (updateProfilesCommand clock options client) in
  (exists e, exit = Uncaught e)
  /\ visited batch = done ++ [feedConfig]
  /\ profileServer batch = profileServer (updateProfiles clock 0 done client).
Proof.
  intros Hcfg Hfeeds Hdone Hx. unfold updateProfilesCommand.
  rewrite Hcfg. cbn [errorContext]. rewrite Hfeeds.
  destruct (updateProfiles_app clock 0 done (feedConfig :: rest) client Hdone)
    as [_ ->].
  cbn zeta. cbn [updateProfiles Nat.add]. rewrite Hx. cbn [errorContext].
  cbn [failure visited profileServer fst snd].
  rewrite (updateProfile_failed _ _ _ Hx).
  repeat split. eauto.
Qed.

Lemma updateProfilesCommand_stops_at_failure_witness :
  visited (snd (@updateProfilesCommand newsRefused tick defaultOptions
                  emptyLedger))
  = [news].
Proof.
  apply (@updateProfilesCommand_stops_at_failure newsRefused tick
           defaultOptions emptyLedger newsFirst [] [blog] news PutRejected).
  - reflexivity.
  - reflexivity.
  - reflexivity.
  - reflexivity.
Defined.

(* ================================================================= *)
(** * The configuration: proofs *)

Lemma sameString_eq (a b : jsstring) : sameString a b = true -> a = b.
Proof.
  unfold sameString. now destruct (list_eq_dec N.eq_dec a b).
Qed.

Lemma repeatedUserID_none (ids : StringSet.t) (fs : list Feed) :
  repeatedUserID ids fs = None ->
  NoDup (map userId fs)
  /\ forall u, In u ids -> ~ In u (map userId fs).
Proof.
  revert ids; induction fs as [|f fs IH]; intros ids; cbn [repeatedUserID map].
  - intros _. split; [constructor | intros u _ []].
  - destruct (StringSet.has ids (Some (userId f))) eqn:Hhas; [discriminate|].
    intros Hrest. destruct (IH _ Hrest) as [Hnd Hout].
    assert (Hnew : ~ In (userId f) ids).
    { intros Hin. apply StringSet_has_In in Hin.
      exact (eq_true_false_abs _ Hin Hhas). }
    split.
    + constructor; [|assumption].
      apply Hout. apply StringSet_add_In. now left.
    + intros u Hu [<-|Hin]; [contradiction|].
      apply (Hout u); [|assumption]. apply StringSet_add_In. now right.
Qed.

Lemma parseFeed_some `{ConfigTools} (raw : RawFeed) (f : Feed) :
  parseFeed raw = Some f ->
  name f <> [] /\ isURL (rssUrl f) = true
  /\ userId f = userIDOf (secretKey f).
Proof.
  unfold parseFeed.
  destruct (nonEmpty (rawName raw)) eqn:Hn; [|discriminate].
  destruct (isURL (rawRssUrl raw)) eqn:Hu; [|discriminate].
  destruct (nonEmpty (rawUserId raw)); [|discriminate].
  destruct (nonEmpty (rawSecretKey raw)); [|discriminate]. cbn [andb].
  destruct (tryFromString (rawUserId raw)) as [id|]; [|discriminate].
  destruct (fromBase58 (rawSecretKey raw)) as [key|]; [|discriminate].
  destruct (sameString id (userIDOf key)) eqn:Hs; [|discriminate].
  intros Hf; inversion Hf; subst f; cbn. repeat split.
  - now destruct (rawName raw).
  - exact Hu.
  - now apply sameString_eq.
Qed.

Lemma parseFeeds_some `{ConfigTools} (raws : list RawFeed) (fs : list Feed) :
  parseFeeds raws = Some fs ->
  List.length fs = List.length raws
  /\ Forall (fun f => name f <> [] /\ isURL (rssUrl f) = true
                      /\ userId f = userIDOf (secretKey f)) fs.
Proof.
  revert fs; induction raws as [|raw raws IH]; intros fs; cbn [parseFeeds].
  - intros Hf; inversion Hf; subst. split; [reflexivity | constructor].
  - destruct (parseFeed raw) as [f|] eqn:Hp; [|discriminate].
    destruct (parseFeeds raws) as [l|]; [|discriminate].
    intros Hf; inversion Hf; subst fs.
    destruct (IH l eq_refl) as [Hlen Hall].
    split; [simpl; now rewrite Hlen|].
    constructor; [now apply (parseFeed_some raw) | assumption].
Qed.

(** Whatever [load] returns is a valid configuration: the address of the
    ledger is a URL, there is at least one feed, no two feeds share an
    identity, and every feed has a name, a URL, and the identity of its
    own secret key. *)
Theorem load_validates `{ConfigTools} (fileName : jsstring) (cfg : Config) :
  load fileName = Ok cfg ->
  isURL (diskutoApi cfg) = true
  /\ feeds cfg <> []
  /\ NoDup (map userId (feeds cfg))
  /\ Forall (fun f => name f <> [] /\ isURL (rssUrl f) = true
                      /\ userId f = userIDOf (secretKey f)) (feeds cfg).
Proof.
  unfold load.
  destruct (loadFile fileName) as [text|e]; [|discriminate]. cbn [bind].
  destruct (parseToml text) as [raw|e]; [|discriminate]. cbn [bind].
  unfold parseConfig.
  destruct (isURL (rawDiskutoApi raw)) eqn:Hapi; [|discriminate].
  destruct (rawFeeds raw) as [|r0 rs] eqn:Hraw; [discriminate|].
  destruct (parseFeeds (r0 :: rs)) as [fs|] eqn:Hfs; [|discriminate].
  destruct (repeatedUserID StringSet.empty fs) eqn:Hrep; [discriminate|].
  intros Hc; inversion Hc; subst cfg; cbn.
  destruct (parseFeeds_some _ Hfs) as [Hlen Hall].
  destruct (repeatedUserID_none _ _ Hrep) as [Hnd _].
  repeat split; auto. intros ->. discriminate.
Qed.

Lemma load_validates_witness :
  NoDup (map userId
           (match @load sampleTools (lit "rss-sync.toml") with
            | Ok cfg => feeds cfg
            | Throw _ => []
            end)).
Proof.
  apply (@load_validates sampleTools (lit "rss-sync.toml") _ eq_refl).
Defined.

(* ================================================================= *)
(** * Entries that throw, and the window in time *)

(** [fromEntry] throws, and so neither skips nor accepts the entry, when
    the entry has a date and its link makes [search] throw (the link is
    then read as a pattern), and whenever its date is the epoch. *)
Theorem fromEntry_throws `{Platform} (item : rss.FeedEntry) (date : Date) :
  FeedItem.orElse (rss.published item) (rss.dc_modified item) = Some date ->
  (forall l ls c u x,
      rss.links item = l :: ls -> rss.href l = Some (c :: u) ->
      search (htmlToMarkdown
                (match FeedItem.orElse (rss.content item)
                                       (rss.description item) with
                 | Some b => rss.value b
                 | None => None
                 end)) (c :: u) = Throw x ->
      FeedItem.fromEntry item = Throw x)
  /\ (date = Num 0 -> exists x, FeedItem.fromEntry item = Throw x).
Proof.
  intros Hd. unfold FeedItem.fromEntry. rewrite Hd. split.
  - intros l ls c u x Hl Hh Hs. rewrite Hl, Hh. unfold addURL.
    now rewrite Hs.
  - intros ->.
    match goal with
    | |- context [bind ?r _] => destruct r as [body|x]
    end; cbn [bind]; [|now exists x].
    exists EpochDate. reflexivity.
Qed.

Lemma fromEntry_throws_witness :
  @FeedItem.fromEntry (serving threeEntries acceptAll) badLinkEntry
  = Throw SyntaxError.
Proof.
  eapply (proj1 (@fromEntry_throws (serving threeEntries acceptAll)
                   badLinkEntry _ eq_refl)); reflexivity.
Defined.

(** On a ledger that streams newest first the scanner reads a window in
    time: its result holds exactly the identifiers decoded from the posts
    that are not older than the oldest pending timestamp minus one week,
    wherever in the stream they stand. *)
Theorem getSeenGUIDs_is_time_window (client : diskuto.Client)
  (userID : diskuto.UserID) (oldestTimestamp : number) :
  newestFirst (diskuto.getUserItems client userID) ->
  forall g,
    StringSet.has (getSeenGUIDs client userID oldestTimestamp) (Some g) = true
    <-> exists e, In e (diskuto.getUserItems client userID)
                  /\ inWindow oldestTimestamp e /\ postMarked e g.
Proof.
  intros Hs g. rewrite StringSet_has_In.
  now apply getSeenGUIDs_newestFirst.
Qed.

Lemma getSeenGUIDs_is_time_window_witness :
  StringSet.has (getSeenGUIDs ledgerWithSecond (userId blog)
                   (Num 1700000100000))
                (Some (lit "urn:2")) = true.
Proof.
  apply (@getSeenGUIDs_is_time_window ledgerWithSecond (userId blog)
           (Num 1700000100000)).
  - repeat constructor.
  - exists (postedAt 1700000200000 (lit "urn:2")). split; [now left|].
    split.
    + vm_compute. discriminate.
    + eexists _, _, _; split; reflexivity.
Defined.

(** When every normalized item has a valid date, the items of a run reach
    the ledger oldest first: of two stored items the one with the earlier
    timestamp is submitted strictly before the other, also in a run that
    is cut short. *)
Theorem syncFeed_valid_dates_in_order `{Platform} (feedConfig : Feed)
  (client : diskuto.Client) (items : list FeedItem.t) :
  pending feedConfig = Ok items -> validDates items ->
  StronglySorted byDate (stored (syncFeed feedConfig client))
  /\ oldestFirst (stored (syncFeed feedConfig client)).
Proof.
  intros Hp Hv.
  assert (Hs : StronglySorted byDate (stored (syncFeed feedConfig client))).
  { rewrite (syncFeed_pending _ _ Hp).
    destruct (storeItems_spec (userId feedConfig)
                (unseen client (userId feedConfig)
                   (sort FeedItem.sortByDate items)) client)
      as ((rest & Hrest) & _).
    apply StronglySorted_prefix with (rest := rest). rewrite <- Hrest.
    rewrite unseen_filter. apply StronglySorted_filter. now apply sort_byDate. }
  split; [exact Hs | now apply byDate_oldestFirst].
Qed.

Lemma syncFeed_valid_dates_in_order_witness :
  StronglySorted byDate
    (stored (@syncFeed (serving threeEntries acceptAll) blog emptyLedger)).
Proof.
  eapply (@syncFeed_valid_dates_in_order (serving threeEntries acceptAll)
            blog emptyLedger).
  - reflexivity.
  - repeat constructor.
Defined.
